(** * ChartMuseum: the storage-to-index synchronisation engine

    A shallow embedding of [pkg/chartmuseum/server.go]: the listing and
    diffing of storage objects, the resolution of chart versions, the
    fan-out/fan-in loading of added objects, the regeneration of the
    repository index under the storage cache lock, and [NewServer].

    Go values are modelled as follows.
    - An [error] interface value is [option error]; [None] is [nil].
    - A function returning [(T, error)] with exactly one of them set is a
      [result T].
    - Calls that reach the outside world (the storage backend, the warning
      log) are recorded in a trace threaded through every function, most
      recent event first.
    - The goroutines of [addIndexObjectsAsync] are a labelled transition
      system; a schedule (a list of labels) picks one interleaving.
    - The store answers the same way throughout one call: a [Backend] is
      a listing and a function from paths to objects.
    - The [IndexFile] field of a [repo.Index] is a pointer.  The index
      files live in a heap that is passed through every function that can
      reach one; copying the field copies the pointer, so the copy and
      the original refer to the same index file. *)

From Stdlib Require Import ZArith Ascii String.
From stdpp Require Import base option list strings gmap.

Set Default Proof Using "Type".

(** A closed equation is settled by evaluating both sides. *)
Ltac by_evaluation :=
  intros;
  lazymatch goal with
  | |- ?lhs = ?rhs => exact (eq_refl rhs <: lhs = rhs)
  end.

(** ** Errors and results *)

(** Go [error] values.  [repo.ErrorInvalidChartPackage] is the one value the
    server compares against; every other error is opaque to it. *)
Inductive error :=
| ErrorInvalidChartPackage
| ErrOther (msg : string).

#[global] Instance error_eq_dec : EqDecision error.
Proof. solve_decision. Defined.

Inductive result (A : Type) :=
| Ok (a : A)
| Err (e : error).
Arguments Ok {A} a.
Arguments Err {A} e.

(** ** Storage objects *)

(** Modelled from the spec: [storage.Object] is declared in the storage
    package, which is not part of the sources at hand.  The server reads
    [Path] and [Content]; the spec's descriptor adds an opaque change
    marker used by the diff. *)
Record Object := {
  Path : string;
  Content : list Byte.byte;
  Marker : Z
}.

(** The storage capability the server holds in [Server.StorageBackend]. *)
Record Backend := {
  ListObjects : result (list Object);
  GetObject : string -> result Object
}.

(** [storage.ObjectSliceDiff]. *)
Record ObjectSliceDiff := {
  Change : bool;
  Removed : list Object;
  Added : list Object;
  Updated : list Object
}.

Definition paths (os : list Object) : list string := Path <$> os.

Definition hasPath (os : list Object) (p : string) : bool :=
  bool_decide (p ∈ paths os).

Definition markerChanged (os : list Object) (o : Object) : bool :=
  existsb (fun o1 => bool_decide (Path o1 = Path o)
                     && negb (bool_decide (Marker o1 = Marker o))) os.

(** Modelled from the spec: [storage.GetObjectSliceDiff] is not part of the
    sources at hand.  "Same path, different marker: updated; path absent
    from new listing: removed; path absent from old snapshot: added."
    [Change] says whether any of the three is non-empty. *)
Definition GetObjectSliceDiff (os1 os2 : list Object) : ObjectSliceDiff :=
  let removed := filter (fun o1 => hasPath os2 (Path o1) = false) os1 in
  let added := filter (fun o2 => hasPath os1 (Path o2) = false) os2 in
  let updated := filter (fun o2 => markerChanged os1 o2 = true) os2 in
  {| Change := negb (Nat.eqb (length added + length removed + length updated) 0);
     Removed := removed;
     Added := added;
     Updated := updated |}.

(** ** Chart versions and the index *)

(** [helm_repo.ChartVersion]: the server reads [Name] and [Version]; the
    remaining metadata is passed through. *)
Record ChartVersion := {
  Name : string;
  Version : string;
  Digest : string
}.

(** What the server uses of the storage package besides the diff. *)
Class StoragePackage := {
  HasExtension : Object -> string -> bool
}.

(** What the server uses of the repo package.  The package is not part of
    the sources at hand: its constant, its parser and the methods of
    [repo.Index] are parameters of the development.  [IndexFileT] is the
    type of the field [IndexFile], a pointer to the index file of the helm
    library; [IndexHeap] is the memory such pointers refer to. *)
Class RepoPackage := {
  IndexFileT : Type;
  IndexHeap : Type;
  ChartPackageFileExtension : string;
  ChartVersionFromStorageObject : Object -> result ChartVersion
}.

(** The struct [repo.Index], with the three fields the server copies. *)
Record Index `{RepoPackage} := {
  IndexFile : IndexFileT;
  Raw : list Byte.byte;
  ChartURL : string
}.

(** What a [*repo.Index] gives access to: the struct it points to and the
    heap that holds the index file the struct refers to.  Two structs with
    the same [IndexFile] share that index file. *)
Definition IndexView `{RepoPackage} : Type := Index * IndexHeap.

(** The methods of [repo.Index].  They are called on a [*repo.Index] and
    return nothing ([Regenerate]: an error): a method acts on the struct
    and on the heap, and the view afterwards is its result here.
    [NewIndex] allocates. *)
Class IndexMethods `{RepoPackage} := {
  NewIndex : string -> IndexHeap -> IndexView;
  RemoveEntry : IndexView -> ChartVersion -> IndexView;
  UpdateEntry : IndexView -> ChartVersion -> IndexView;
  AddEntry : IndexView -> ChartVersion -> IndexView;
  Regenerate : IndexView -> IndexView * option error
}.

(** ** Traces *)

(** A listing, a fetch, and the warning "Invalid package in storage". *)
Inductive event :=
| EvListObjects
| EvGetObject (path : string)
| EvWarnInvalidPackage (action : string) (package : string).

#[global] Instance event_eq_dec : EqDecision event.
Proof. solve_decision. Defined.

Definition trace := list event.

(** The paths fetched with [GetObject], most recent first. *)
Fixpoint fetched (tr : trace) : list string :=
  match tr with
  | [] => []
  | EvGetObject p :: tr' => p :: fetched tr'
  | _ :: tr' => fetched tr'
  end.

(** ** The server *)

Record Logger := { LogJSON : bool; LogDebug : bool }.

Record Router := {
  RouterLogger : Logger;
  RouterUsername : string;
  RouterPassword : string;
  RouterMetrics : bool
}.

(** [Server]; its [Logger] and [Router] fields are [SLogger] and
    [SRouter] here. *)
Record Server `{RepoPackage} := {
  SLogger : Logger;
  SRouter : Router;
  RepositoryIndex : Index;
  StorageBackend : Backend;
  StorageCache : list Object;
  StorageCacheLock : bool;   (* [true] while the mutex is held *)
  AllowOverwrite : bool;
  TlsCert : string;
  TlsKey : string;
  ChartPostFormFieldName : string;
  ProvPostFormFieldName : string
}.

Record ServerOptions := {
  OptStorageBackend : Backend;
  OptLogJSON : bool;
  OptDebug : bool;
  OptEnableAPI : bool;
  OptAllowOverwrite : bool;
  OptEnableMetrics : bool;
  OptChartURL : string;
  OptTlsCert : string;
  OptTlsKey : string;
  OptUsername : string;
  OptPassword : string;
  OptChartPostFormFieldName : string;
  OptProvPostFormFieldName : string
}.

(** ** Goroutines, callers and what [NewServer] returns *)

(** [cvResult], the value sent on [cvChan]. *)
Record cvResult := { cv : option ChartVersion; err : option error }.

(** Where a goroutine of [addIndexObjectsAsync] stands. *)
Inductive goroutine :=
| GSpawned                 (* started, [select] not yet evaluated *)
| GWorking                 (* [default] branch taken *)
| GSending (r : cvResult)    (* blocked in [cvChan <- r] *)
| GDelivered (r : cvResult)  (* its value was received; it has exited *)
| GCancelled.              (* [<-ctx.Done()] branch: exited without sending *)

(** Where the receive loop stands. *)
Inductive coordinator :=
| CReceiving (validCount : nat)   (* blocked in [<-cvChan] *)
| CReturned (e : option error).

Inductive label :=
| LSelect (i : nat)
| LResolve (i : nat)
| LRecv (i : nat).

(** Where a caller of [syncRepositoryIndex] or [regenerateRepositoryIndex]
    stands. *)
Inductive caller :=
| AtSync                    (* in [syncRepositoryIndex], line 185 not yet run *)
| AtLock                    (* in [regenerateRepositoryIndex], at [Lock()] *)
| Regenerating              (* holds the lock, lines 223-262 *)
| Finished (e : option error).

Inductive plabel :=
| PList (t : nat)
| PLock (t : nat)
| PRegenerate (t : nat) (sched : list label).

(** What the zap package decides: whether [config.Build()] fails. *)
Class ZapPackage := {
  configBuild : bool -> bool -> option error
}.

(** A [*Server] as [NewServer] returns it: [new(Server)], every field zero,
    or the server it built. *)
Inductive ServerPtr `{RepoPackage} :=
| ZeroServer
| ServerAt (server : Server).

(** How often a list scores under [f]. *)
Fixpoint tally {A} (f : A -> nat) (l : list A) : nat :=
  match l with
  | [] => 0
  | x :: l' => f x + tally f l'
  end.

Section Engine.
Context `{storagePkg : StoragePackage} `{repoPkg : RepoPackage}
        `{indexMethods : !IndexMethods} `{zapPkg : ZapPackage}.

Definition setLock (server : Server) (held : bool) : Server :=
  {| SLogger := SLogger server; SRouter := SRouter server;
     RepositoryIndex := RepositoryIndex server;
     StorageBackend := StorageBackend server;
     StorageCache := StorageCache server;
     StorageCacheLock := held;
     AllowOverwrite := AllowOverwrite server;
     TlsCert := TlsCert server; TlsKey := TlsKey server;
     ChartPostFormFieldName := ChartPostFormFieldName server;
     ProvPostFormFieldName := ProvPostFormFieldName server |}.

(** The two assignments that publish a regeneration (lines 260-261). *)
Definition publish (server : Server) (index : Index) (objects : list Object)
  : Server :=
  {| SLogger := SLogger server; SRouter := SRouter server;
     RepositoryIndex := index;
     StorageBackend := StorageBackend server;
     StorageCache := objects;
     StorageCacheLock := StorageCacheLock server;
     AllowOverwrite := AllowOverwrite server;
     TlsCert := TlsCert server; TlsKey := TlsKey server;
     ChartPostFormFieldName := ChartPostFormFieldName server;
     ProvPostFormFieldName := ProvPostFormFieldName server |}.

(** *** [listObjectsGetDiff] *)

Definition filterObjects (allObjects : list Object) : list Object :=
  filter (fun object => HasExtension object ChartPackageFileExtension = true)
         allObjects.

Definition emptyDiff : ObjectSliceDiff :=
  {| Change := false; Removed := []; Added := []; Updated := [] |}.

Definition listObjectsGetDiff (server : Server) (tr : trace)
  : list Object * ObjectSliceDiff * option error * trace :=
  let tr := EvListObjects :: tr in
  match ListObjects (StorageBackend server) with
  | Err e => ([], emptyDiff, Some e, tr)
  | Ok allObjects =>
      let filteredObjects := filterObjects allObjects in
      let diff := GetObjectSliceDiff (StorageCache server) filteredObjects in
      (filteredObjects, diff, None, tr)
  end.

(** *** [getObjectChartVersion] and [checkInvalidChartPackageError] *)

Definition getObjectChartVersion (server : Server) (object : Object)
    (load : bool) (tr : trace) : result ChartVersion * trace :=
  if load then
    let tr := EvGetObject (Path object) :: tr in
    match GetObject (StorageBackend server) (Path object) with
    | Err e => (Err e, tr)
    | Ok object' =>
        if Nat.eqb (length (Content object')) 0
        then (Err ErrorInvalidChartPackage, tr)
        else (ChartVersionFromStorageObject object', tr)
    end
  else (ChartVersionFromStorageObject object, tr).

Definition checkInvalidChartPackageError (object : Object) (e : error)
    (action : string) (tr : trace) : option error * trace :=
  if decide (e = ErrorInvalidChartPackage)
  then (None, EvWarnInvalidPackage action (Path object) :: tr)
  else (Some e, tr).

(** *** [removeIndexObject] and [updateIndexObject] *)

Definition removeIndexObject (server : Server) (index : IndexView)
    (object : Object) (tr : trace) : IndexView * option error * trace :=
  match getObjectChartVersion server object false tr with
  | (Err e, tr) =>
      let '(e', tr) := checkInvalidChartPackageError object e "removed" tr in
      (index, e', tr)
  | (Ok chartVersion, tr) => (RemoveEntry index chartVersion, None, tr)
  end.

Definition updateIndexObject (server : Server) (index : IndexView)
    (object : Object) (tr : trace) : IndexView * option error * trace :=
  match getObjectChartVersion server object true tr with
  | (Err e, tr) =>
      let '(e', tr) := checkInvalidChartPackageError object e "updated" tr in
      (index, e', tr)
  | (Ok chartVersion, tr) => (UpdateEntry index chartVersion, None, tr)
  end.

(** A [for _, object := range objects] loop that returns at the first
    non-nil error. *)
Fixpoint forEachObject
    (body : IndexView -> Object -> trace -> IndexView * option error * trace)
    (objects : list Object) (index : IndexView) (tr : trace)
  : IndexView * option error * trace :=
  match objects with
  | [] => (index, None, tr)
  | object :: rest =>
      match body index object tr with
      | (index, Some e, tr) => (index, Some e, tr)
      | (index, None, tr) => forEachObject body rest index tr
      end
  end.


(** *** [addIndexObjectsAsync]: one goroutine per added object *)

(** The goroutine body (lines 318-325), after the [default] branch of the
    [select] was taken: the value it is about to send.  It calls
    [cancel()] exactly when the error in that value is non-nil. *)
Definition resolveAdded (server : Server) (o : Object) (tr : trace)
  : cvResult * trace :=
  match getObjectChartVersion server o true tr with
  | (Err e, tr) =>
      let '(e', tr) := checkInvalidChartPackageError o e "added" tr in
      ({| cv := None; err := e' |}, tr)
  | (Ok chartVersion, tr) => ({| cv := Some chartVersion; err := None |}, tr)
  end.

Record async := {
  gos : list goroutine;      (* goroutine i runs on [objects !! i] *)
  ctxDone : bool;            (* [cancel()] has been called *)
  coord : coordinator;
  aindex : IndexView;        (* the index the coordinator adds to *)
  atrace : trace
}.

Definition asyncInit (index : IndexView) (objects : list Object)
    (tr : trace) : async :=
  {| gos := replicate (length objects) GSpawned; ctxDone := false;
     coord := CReceiving 0; aindex := index; atrace := tr |}.

Definition setGo (s : async) (i : nat) (g : goroutine) : async :=
  {| gos := <[i := g]> (gos s); ctxDone := ctxDone s; coord := coord s;
     aindex := aindex s; atrace := atrace s |}.

(** One iteration of the receive loop (lines 331-343) on the value [r],
    followed by [validCount++] and the loop test; leaving the function runs
    the deferred [cancel()]. *)
Definition receive (numObjects validCount : nat) (r : cvResult) (s : async)
  : async :=
  match err r with
  | Some e =>
      {| gos := gos s; ctxDone := true; coord := CReturned (Some e);
         aindex := aindex s; atrace := atrace s |}
  | None =>
      let index := match cv r with
                   | None => aindex s
                   | Some chartVersion => AddEntry (aindex s) chartVersion
                   end in
      if Nat.ltb (S validCount) numObjects
      then {| gos := gos s; ctxDone := ctxDone s;
              coord := CReceiving (S validCount);
              aindex := index; atrace := atrace s |}
      else {| gos := gos s; ctxDone := true; coord := CReturned None;
              aindex := index; atrace := atrace s |}
  end.

(** One step of the system.  [None]: the step is not enabled.
    - [LSelect i]: goroutine [i] evaluates its [select]: it returns when the
      context is done and goes on to resolve its object otherwise.
    - [LResolve i]: goroutine [i] resolves its object, cancels the context
      on a fatal error and reaches the send on the unbuffered channel.
    - [LRecv i]: the coordinator, blocked in [<-cvChan], receives the value
      goroutine [i] is sending.  Nothing is received once the coordinator
      has returned. *)
Definition astep (server : Server) (objects : list Object) (l : label)
    (s : async) : option async :=
  match l with
  | LSelect i =>
      match gos s !! i with
      | Some GSpawned =>
          Some (setGo s i (if ctxDone s then GCancelled else GWorking))
      | _ => None
      end
  | LResolve i =>
      match gos s !! i, objects !! i with
      | Some GWorking, Some o =>
          let '(r, tr) := resolveAdded server o (atrace s) in
          Some {| gos := <[i := GSending r]> (gos s);
                  ctxDone := ctxDone s || bool_decide (is_Some (err r));
                  coord := coord s; aindex := aindex s; atrace := tr |}
      | _, _ => None
      end
  | LRecv i =>
      match gos s !! i, coord s with
      | Some (GSending r), CReceiving validCount =>
          Some (receive (length objects) validCount r
                        (setGo s i (GDelivered r)))
      | _, _ => None
      end
  end.

(** Run a whole schedule. *)
Fixpoint aexec (server : Server) (objects : list Object) (sched : list label)
    (s : async) : option async :=
  match sched with
  | [] => Some s
  | l :: sched' =>
      match astep server objects l s with
      | Some s' => aexec server objects sched' s'
      | None => None
      end
  end.

(** Run a schedule up to the moment the coordinator returns.  [None]: the
    schedule does not bring the coordinator to its return. *)
Fixpoint arun (server : Server) (objects : list Object) (sched : list label)
    (s : async) : option async :=
  match coord s with
  | CReturned _ => Some s
  | CReceiving _ =>
      match sched with
      | [] => None
      | l :: sched' =>
          match astep server objects l s with
          | Some s' => arun server objects sched' s'
          | None => None
          end
      end
  end.

Definition addIndexObjectsAsync (sched : list label) (server : Server)
    (index : IndexView) (objects : list Object) (tr : trace)
  : option (IndexView * option error * trace) :=
  if Nat.eqb (length objects) 0 then Some (index, None, tr)
  else
    match arun server objects sched (asyncInit index objects tr) with
    | Some s =>
        match coord s with
        | CReturned e => Some (aindex s, e, atrace s)
        | CReceiving _ => None
        end
    | None => None
    end.

(** What the goroutine of [o] sends if it gets to resolve: the trace it
    extends does not influence the value. *)
Definition outcome (server : Server) (o : Object) : cvResult :=
  fst (resolveAdded server o []).

Definition isDelivered (g : goroutine) : nat :=
  match g with GDelivered _ => 1 | _ => 0 end.

(** How many outcomes the coordinator has received. *)
Definition delivered (s : async) : nat := tally isDelivered (gos s).

(** The steps a goroutine still has before it. *)
Definition rank (g : goroutine) : nat :=
  match g with
  | GSpawned => 3
  | GWorking => 2
  | GSending _ => 1
  | GDelivered _ | GCancelled => 0
  end.

Definition measure (s : async) : nat := tally rank (gos s).

(** The states some interleaving reaches from the dispatch of [objects]. *)
Definition areachable (server : Server) (index : IndexView)
    (objects : list Object) (tr : trace) (s : async) : Prop :=
  exists sched,
    aexec server objects sched (asyncInit index objects tr) = Some s.

(** The interleaving that runs the goroutines one after the other. *)
Definition seqSchedule (n : nat) : list label :=
  flat_map (fun i => [LSelect i; LResolve i; LRecv i]) (seq 0 n).

(** What the coordinator's position says about the goroutines. *)
Definition coordInv (objects : list Object) (s : async) : Prop :=
  match coord s with
  | CReceiving validCount =>
      validCount = delivered s
      ∧ validCount < length objects
      ∧ (∀ i r, gos s !! i = Some (GDelivered r) → err r = None)
      ∧ (ctxDone s = true →
         ∃ i r, gos s !! i = Some (GSending r) ∧ is_Some (err r))
      ∧ (∀ i, gos s !! i = Some GCancelled → ctxDone s = true)
  | CReturned None =>
      ctxDone s = true
      ∧ ∀ i, i < length objects →
             ∃ r, gos s !! i = Some (GDelivered r) ∧ err r = None
  | CReturned (Some e) =>
      ctxDone s = true
      ∧ ∃ i r, gos s !! i = Some (GDelivered r) ∧ err r = Some e
               ∧ ∀ j r', j ≠ i → gos s !! j = Some (GDelivered r') →
                         err r' = None
  end.

(** The invariant of the goroutine system: one goroutine per object, every
    value sent is the outcome of the goroutine's own object, and the
    coordinator's position agrees with what was delivered. *)
Definition ainv (server : Server) (objects : list Object) (s : async) : Prop :=
  length (gos s) = length objects
  ∧ (∀ i r, gos s !! i = Some (GSending r) ∨ gos s !! i = Some (GDelivered r) →
            ∃ o, objects !! i = Some o ∧ r = outcome server o)
  ∧ coordInv objects s.

(** *** [regenerateRepositoryIndex] *)

(** The struct literal of lines 228-232: the three fields of the published
    index are copied, the pointer [IndexFile] among them. *)
Definition copyIndex (index : Index) : Index :=
  {| IndexFile := IndexFile index; Raw := Raw index;
     ChartURL := ChartURL index |}.

(** Lines 223-262: what runs between [Lock()] and the deferred [Unlock()].
    The methods act on the heap through the working index, so every
    return, also one with an error, leaves the heap as the methods called
    so far have made it; the fields of the server are assigned on lines
    260-261 only. *)
Definition regenerateBody (sched : list label) (server : Server)
    (heap : IndexHeap) (tr : trace)
  : option (Server * IndexHeap * option error * trace) :=
  match listObjectsGetDiff server tr with
  | (_, _, Some e, tr) => Some (server, heap, Some e, tr)
  | (objects, diff, None, tr) =>
      let index := (copyIndex (RepositoryIndex server), heap) in
      match forEachObject (removeIndexObject server) (Removed diff) index tr with
      | (index, Some e, tr) => Some (server, index.2, Some e, tr)
      | (index, None, tr) =>
      match forEachObject (updateIndexObject server) (Updated diff) index tr with
      | (index, Some e, tr) => Some (server, index.2, Some e, tr)
      | (index, None, tr) =>
      match addIndexObjectsAsync sched server index (Added diff) tr with
      | None => None
      | Some (index, Some e, tr) => Some (server, index.2, Some e, tr)
      | Some (index, None, tr) =>
      match Regenerate index with
      | (index, Some e) => Some (server, index.2, Some e, tr)
      | (index, None) =>
          Some (publish server index.1 objects, index.2, None, tr)
      end end end end
  end.

(** [Lock()] blocks while the mutex is held: no result.  The deferred
    [Unlock()] runs on every return. *)
Definition regenerateRepositoryIndex (sched : list label) (server : Server)
    (heap : IndexHeap) (tr : trace)
  : option (Server * IndexHeap * option error * trace) :=
  if StorageCacheLock server then None
  else
    match regenerateBody sched (setLock server true) heap tr with
    | Some (server, heap, e, tr) => Some (setLock server false, heap, e, tr)
    | None => None
    end.

(** *** [syncRepositoryIndex] *)

Definition syncRepositoryIndex (sched : list label) (server : Server)
    (heap : IndexHeap) (tr : trace)
  : option (Server * IndexHeap * option error * trace) :=
  match listObjectsGetDiff server tr with
  | (_, _, Some e, tr) => Some (server, heap, Some e, tr)
  | (_, diff, None, tr) =>
      if negb (Change diff) then Some (server, heap, None, tr)
      else regenerateRepositoryIndex sched server heap tr
  end.

(** *** Several callers on one server *)

Record process := {
  pserver : Server;
  pheap : IndexHeap;
  callers : list caller;
  ptrace : trace
}.

(** One step of caller [t].  [None]: the step is not enabled.
    - [PList t]: lines 185-191 of [syncRepositoryIndex], before any lock.
    - [PLock t]: [StorageCacheLock.Lock()], enabled when the mutex is free.
    - [PRegenerate t sched]: the body of the regeneration and the deferred
      [Unlock()]. *)
Definition pstep (l : plabel) (p : process) : option process :=
  match l with
  | PList t =>
      match callers p !! t with
      | Some AtSync =>
          match listObjectsGetDiff (pserver p) (ptrace p) with
          | (_, _, Some e, tr) =>
              Some {| pserver := pserver p; pheap := pheap p;
                      callers := <[t := Finished (Some e)]> (callers p);
                      ptrace := tr |}
          | (_, diff, None, tr) =>
              Some {| pserver := pserver p; pheap := pheap p;
                      callers := <[t := if negb (Change diff)
                                        then Finished None else AtLock]>
                                   (callers p);
                      ptrace := tr |}
          end
      | _ => None
      end
  | PLock t =>
      match callers p !! t with
      | Some AtLock =>
          if StorageCacheLock (pserver p) then None
          else Some {| pserver := setLock (pserver p) true;
                       pheap := pheap p;
                       callers := <[t := Regenerating]> (callers p);
                       ptrace := ptrace p |}
      | _ => None
      end
  | PRegenerate t sched =>
      match callers p !! t with
      | Some Regenerating =>
          match regenerateBody sched (pserver p) (pheap p) (ptrace p) with
          | Some (server, heap, e, tr) =>
              Some {| pserver := setLock server false; pheap := heap;
                      callers := <[t := Finished e]> (callers p);
                      ptrace := tr |}
          | None => None
          end
      | _ => None
      end
  end.

Fixpoint pexec (ls : list plabel) (p : process) : option process :=
  match ls with
  | [] => Some p
  | l :: ls' =>
      match pstep l p with
      | Some p' => pexec ls' p'
      | None => None
      end
  end.


Definition isRegenerating (c : caller) : nat :=
  match c with Regenerating => 1 | _ => 0 end.

(** How many callers are inside a regeneration. *)
Definition regenerating (p : process) : nat :=
  tally isRegenerating (callers p).

(** The fan-in that drains: once the coordinator has returned, the values
    still being sent are received, so that no goroutine stays in its
    send. *)
Definition drainsAfterReturn (server : Server) (index : IndexView)
    (objects : list Object) (tr : trace) : Prop :=
  ∀ s e, areachable server index objects tr s → coord s = CReturned e →
         ∃ sched s', aexec server objects sched s = Some s'
                     ∧ ∀ i r, gos s' !! i ≠ Some (GSending r).

(** A caller of [syncRepositoryIndex] that waits for the lock: while the
    lock is held it does not run. *)
Definition syncWaitsForLock (p : process) : Prop :=
  ∀ t, StorageCacheLock (pserver p) = true →
       callers p !! t = Some AtSync → pstep (PList t) p = None.

(** *** [NewLogger] and [NewServer] *)

Definition NewLogger (json debug : bool) : Logger * option error :=
  match configBuild json debug with
  | Some e => ({| LogJSON := false; LogDebug := false |}, Some e)
  | None => ({| LogJSON := json; LogDebug := debug |}, None)
  end.

Definition NewRouter (logger : Logger) (username password : string)
    (enableMetrics : bool) : Router :=
  {| RouterLogger := logger; RouterUsername := username;
     RouterPassword := password; RouterMetrics := enableMetrics |}.

(** The server literal of [NewServer] (lines 122-136); [repo.NewIndex]
    allocates in [heap]. *)
Definition buildServer (options : ServerOptions) (logger : Logger)
    (heap : IndexHeap) : Server :=
  {| SLogger := logger;
     SRouter := NewRouter logger (OptUsername options) (OptPassword options)
                          (OptEnableMetrics options);
     RepositoryIndex := (NewIndex (OptChartURL options) heap).1;
     StorageBackend := OptStorageBackend options;
     StorageCache := [];
     StorageCacheLock := false;
     AllowOverwrite := OptAllowOverwrite options;
     TlsCert := OptTlsCert options; TlsKey := OptTlsKey options;
     ChartPostFormFieldName := OptChartPostFormFieldName options;
     ProvPostFormFieldName := OptProvPostFormFieldName options |}.

(** [setRoutes] only registers handlers on the router; it touches none of
    the fields modelled here. *)
Definition NewServer (sched : list label) (options : ServerOptions)
    (heap : IndexHeap) (tr : trace)
  : option (ServerPtr * IndexHeap * option error * trace) :=
  match NewLogger (OptLogJSON options) (OptDebug options) with
  | (_, Some _) => Some (ZeroServer, heap, None, tr)
  | (logger, None) =>
      match regenerateRepositoryIndex sched (buildServer options logger heap)
              (NewIndex (OptChartURL options) heap).2 tr with
      | Some (server, heap, e, tr) => Some (ServerAt server, heap, e, tr)
      | None => None
      end
  end.

(** *** Views of the goroutines, the traces and the callers *)

(** The goroutine has fetched its object: it is sending or has sent. *)
Definition hasResolved (g : goroutine) : bool :=
  match g with GSending _ | GDelivered _ => true | _ => false end.

Definition wasDelivered (g : goroutine) : bool :=
  match g with GDelivered _ => true | _ => false end.

(** The objects whose goroutine satisfies [f], in the order of [objects]. *)
Fixpoint pick (f : goroutine -> bool) (objects : list Object)
    (gs : list goroutine) : list Object :=
  match objects, gs with
  | o :: objects', g :: gs' =>
      if f g then o :: pick f objects' gs' else pick f objects' gs'
  | _, _ => []
  end.

(** What the receive loop does to the index with a value that carries no
    error (lines 335-342). *)
Definition addReceived (index : IndexView) (r : cvResult) : IndexView :=
  match cv r with
  | Some chartVersion => AddEntry index chartVersion
  | None => index
  end.

(** The number of [ListObjects] calls in a trace. *)
Fixpoint listings (tr : trace) : nat :=
  match tr with
  | [] => 0
  | EvListObjects :: tr' => S (listings tr')
  | _ :: tr' => listings tr'
  end.

(** The steps a caller still has before it. *)
Definition callerRank (c : caller) : nat :=
  match c with
  | AtSync => 3
  | AtLock => 2
  | Regenerating => 1
  | Finished _ => 0
  end.

(** What the goroutines have done so far: the paths fetched are those of
    the objects whose goroutine has resolved, and the coordinator's index
    is the initial one with the delivered values added in some order. *)
Definition ahistory (server : Server) (index0 : IndexView)
    (objects : list Object) (tr0 : trace) (s : async) : Prop :=
  fetched (atrace s) ≡ₚ paths (pick hasResolved objects (gos s)) ++ fetched tr0
  ∧ ∃ received,
      received ≡ₚ pick wasDelivered objects (gos s)
      ∧ aindex s = foldl addReceived index0 (outcome server <$> received).

(** The steps the callers of a process still have before them. *)
Definition pmeasure (p : process) : nat := tally callerRank (callers p).

(** What an object of a diff set can put into the trace: its fetch when
    it is loaded, and the warning with the action of its set when it
    resolves to [ErrorInvalidChartPackage]. *)
Definition objectEvent (server : Server) (action : string) (load : bool)
    (o : Object) (ev : event) : Prop :=
  (load = true ∧ ev = EvGetObject (Path o))
  ∨ (ev = EvWarnInvalidPackage action (Path o)
     ∧ (getObjectChartVersion server o load []).1
       = Err ErrorInvalidChartPackage).

(** The chart version an object resolves to, when it resolves to one. *)
Definition chartOf (server : Server) (load : bool) (o : Object)
  : option ChartVersion :=
  match (getObjectChartVersion server o load []).1 with
  | Ok chartVersion => Some chartVersion
  | Err _ => None
  end.

End Engine.

(** ** A concrete store, parser and index to run the engine on *)

Module Fixture.

(** [filepath.Ext]: the suffix of the last path element from its last dot. *)
Fixpoint extFrom (reversed acc : list Ascii.ascii) : list Ascii.ascii :=
  match reversed with
  | [] => []
  | c :: rest =>
      if Ascii.eqb c "."%char then c :: acc
      else if Ascii.eqb c "/"%char then []
      else extFrom rest (c :: acc)
  end.

Definition Ext (path : string) : string :=
  string_of_list_ascii (extFrom (rev (list_ascii_of_string path)) []).

(** Modelled from the spec: the artifact file-extension convention of
    [Object.HasExtension], the path ending in a dot and the extension. *)
#[export] Instance storagePkg : StoragePackage :=
  {| HasExtension := fun object extension =>
       String.eqb (Ext (Path object)) ("." ++ extension) |}.

Fixpoint splitDash (s : list Ascii.ascii)
  : list Ascii.ascii * list Ascii.ascii :=
  match s with
  | [] => ([], [])
  | c :: rest =>
      if Ascii.eqb c "-"%char then ([], rest)
      else let '(a, b) := splitDash rest in (c :: a, b)
  end.

(** A stand-in for the external parser: a package named
    [name-version.tgz] whose content, when present, starts with the gzip
    magic byte. *)
Definition parse (object : Object) : result ChartVersion :=
  let p := list_ascii_of_string (Path object) in
  let stem := take (length p - 4) p in
  let '(n, v) := splitDash stem in
  let wellFormed :=
    match Content object with
    | [] => true
    | b :: _ => Byte.eqb b Byte.x1f
    end in
  if wellFormed && negb (Nat.eqb (length n) 0) && negb (Nat.eqb (length v) 0)
  then Ok {| Name := string_of_list_ascii n;
             Version := string_of_list_ascii v;
             Digest := string_of_list_ascii
                         (map Ascii.ascii_of_byte (Content object)) |}
  else Err ErrorInvalidChartPackage.

(** The entries of an index file, by name and version. *)
Definition Entries : Type := gmap (string * string) ChartVersion.

(** An index file is addressed by its position in the heap. *)
#[export] Instance repoPkg : RepoPackage :=
  {| IndexFileT := nat;
     IndexHeap := list Entries;
     ChartPackageFileExtension := "tgz";
     ChartVersionFromStorageObject := parse |}.

Definition key (chartVersion : ChartVersion) : string * string :=
  (Name chartVersion, Version chartVersion).

(** The entries a view shows: those of the index file its struct points
    to. *)
Definition entries (index : IndexView) : Entries :=
  default ∅ (index.2 !! IndexFile index.1).

(** A method that changes the entries changes them in the heap, for every
    struct that points to the same index file. *)
Definition onEntries (f : Entries -> Entries) (index : IndexView)
  : IndexView :=
  (index.1, alter f (IndexFile index.1) index.2).

Definition upsert (index : IndexView) (chartVersion : ChartVersion)
  : IndexView :=
  onEntries (insert (key chartVersion) chartVersion) index.

Definition render (file : Entries) : list Byte.byte :=
  flat_map (fun kv => map Ascii.byte_of_ascii
                          (list_ascii_of_string (fst (fst kv) ++ "@"
                                                 ++ snd (fst kv) ++ ";")))
           (map_to_list file).

(** Modelled from the spec: [AddEntry] and [UpdateEntry] are "upsert by
    (name, version)", [RemoveEntry] on a missing key is a no-op,
    [Regenerate] serialises the entry mapping into [Raw].  [NewIndex]
    allocates an empty index file at the end of the heap. *)
#[export] Instance indexMethods : IndexMethods :=
  {| NewIndex := fun chartURL heap =>
       ({| IndexFile := length heap; Raw := []; ChartURL := chartURL |},
        heap ++ [∅]);
     RemoveEntry := fun index chartVersion =>
       onEntries (delete (key chartVersion)) index;
     UpdateEntry := upsert;
     AddEntry := upsert;
     Regenerate := fun index =>
       (({| IndexFile := IndexFile index.1; Raw := render (entries index);
            ChartURL := ChartURL index.1 |}, index.2), None) |}.

#[export] Instance zapPkg : ZapPackage :=
  {| configBuild := fun _ _ => None |}.

(** A logging library whose [config.Build()] fails. *)
Definition brokenZap : ZapPackage :=
  {| configBuild := fun _ _ => Some (ErrOther "zap: no encoder") |}.

Definition gz : list Byte.byte := [Byte.x1f; Byte.x8b].

Definition obj (path : string) (marker : Z) : Object :=
  {| Path := path; Content := []; Marker := marker |}.

(** A store: what a listing shows and, per path, what a fetch returns. *)
Definition store (listing : list Object)
    (contents : list (string * result (list Byte.byte))) : Backend :=
  {| ListObjects := Ok listing;
     GetObject := fun path =>
       match list_find (fun kv => fst kv = path) contents with
       | Some (_, (_, Ok content)) =>
           Ok {| Path := path; Content := content; Marker := 0 |}
       | Some (_, (_, Err e)) => Err e
       | None => Err (ErrOther "no such object")
       end |}.

Definition options (backend : Backend) : ServerOptions :=
  {| OptStorageBackend := backend; OptLogJSON := false; OptDebug := false;
     OptEnableAPI := true; OptAllowOverwrite := false;
     OptEnableMetrics := false; OptChartURL := "http://charts";
     OptTlsCert := ""; OptTlsKey := ""; OptUsername := "";
     OptPassword := ""; OptChartPostFormFieldName := "chart";
     OptProvPostFormFieldName := "prov" |}.

Definition chart (name version : string) : ChartVersion :=
  {| Name := name; Version := version; Digest := "" |}.

(** The heap before anything is allocated. *)
Definition emptyHeap : IndexHeap := [].

(** A fresh heap with one index file that holds [chartVersions], and the
    struct that points to it. *)
Definition indexOf (chartVersions : list ChartVersion) : IndexView :=
  foldl upsert (NewIndex "http://charts" emptyHeap) chartVersions.

(** A server between two synchronisations. *)
Definition server (backend : Backend) (cache : list Object) (index : Index)
  : Server :=
  {| SLogger := {| LogJSON := false; LogDebug := false |};
     SRouter := NewRouter {| LogJSON := false; LogDebug := false |} "" "" false;
     RepositoryIndex := index;
     StorageBackend := backend;
     StorageCache := cache;
     StorageCacheLock := false;
     AllowOverwrite := false; TlsCert := ""; TlsKey := "";
     ChartPostFormFieldName := "chart"; ProvPostFormFieldName := "prov" |}.

(** The store lost [old], changed [upd] and gained [x], [y], [z] and a
    file that is no package. *)
Definition cache1 : list Object :=
  [obj "old-1.0.0.tgz" 1; obj "upd-1.0.0.tgz" 1].

Definition listing1 : list Object :=
  [obj "upd-1.0.0.tgz" 2; obj "x-1.0.0.tgz" 1; obj "y-1.0.0.tgz" 1;
   obj "z-1.0.0.tgz" 1; obj "README.md" 1].

Definition index1 : IndexView :=
  Eval vm_compute in indexOf [chart "old" "1.0.0"; chart "upd" "1.0.0"].

(** The heap the servers below start from: the one index file of [index1]. *)
Definition heap1 : IndexHeap := index1.2.

(** Fetching [y] times out. *)
Definition failingStore : Backend :=
  store listing1
        [("upd-1.0.0.tgz", Ok gz); ("x-1.0.0.tgz", Ok gz);
         ("y-1.0.0.tgz", Err (ErrOther "timeout")); ("z-1.0.0.tgz", Ok gz)].

(** Every fetch succeeds; [y] is no archive and [z] is empty. *)
Definition healthyStore : Backend :=
  store listing1
        [("upd-1.0.0.tgz", Ok gz); ("x-1.0.0.tgz", Ok gz);
         ("y-1.0.0.tgz", Ok [Byte.x00]); ("z-1.0.0.tgz", Ok [])].

Definition failingServer : Server := server failingStore cache1 index1.1.
Definition healthyServer : Server := server healthyStore cache1 index1.1.

Definition added1 : list Object :=
  [obj "x-1.0.0.tgz" 1; obj "y-1.0.0.tgz" 1; obj "z-1.0.0.tgz" 1].

(** [x] and [z] are received before [y]. *)
Definition lateFailure : list label :=
  [LSelect 0; LSelect 1; LSelect 2; LResolve 0; LResolve 2; LResolve 1;
   LRecv 0; LRecv 2; LRecv 1].

(** All three goroutines reach their send, [y] is received first. *)
Definition earlyFailure : list label :=
  [LSelect 0; LSelect 1; LSelect 2; LResolve 0; LResolve 1; LResolve 2;
   LRecv 1].

Definition inOrder : list label := seqSchedule 3.

(** The goroutines after [earlyFailure]: the coordinator has returned the
    timeout, [x] and [z] are still being sent. *)
Definition afterEarlyFailure : async :=
  Eval vm_compute in
    default (asyncInit index1 added1 [])
            (aexec failingServer added1 earlyFailure
                   (asyncInit index1 added1 [])).

(** Two callers of [syncRepositoryIndex] on one server. *)
Definition twoCallers : process :=
  {| pserver := healthyServer; pheap := heap1; callers := [AtSync; AtSync];
     ptrace := [] |}.

(** The first caller has taken the lock, the second has just arrived. *)
Definition oneRegenerating : process :=
  Eval vm_compute in
    default twoCallers (pexec [PList 0; PLock 0] twoCallers).

(** What the failing synchronisation with [lateFailure] did. *)
Definition failedTrace : trace :=
  [EvGetObject "y-1.0.0.tgz"; EvGetObject "z-1.0.0.tgz";
   EvGetObject "x-1.0.0.tgz"; EvGetObject "upd-1.0.0.tgz";
   EvListObjects; EvListObjects].

(** What the regeneration of the healthy server did. *)
Definition syncedTrace : trace :=
  [EvWarnInvalidPackage "added" "z-1.0.0.tgz"; EvGetObject "z-1.0.0.tgz";
   EvWarnInvalidPackage "added" "y-1.0.0.tgz"; EvGetObject "y-1.0.0.tgz";
   EvGetObject "x-1.0.0.tgz"; EvGetObject "upd-1.0.0.tgz"; EvListObjects].

(** The healthy server and the heap after its synchronisation. *)
Definition syncedServer : Server :=
  Eval vm_compute in
    match syncRepositoryIndex inOrder healthyServer heap1 [] with
    | Some (server, _, _, _) => server
    | None => healthyServer
    end.

Definition syncedHeap : IndexHeap :=
  Eval vm_compute in
    match syncRepositoryIndex inOrder healthyServer heap1 [] with
    | Some (_, heap, _, _) => heap
    | None => heap1
    end.

(** The heap after the failing synchronisation with [lateFailure]. *)
Definition leakedHeap : IndexHeap :=
  Eval vm_compute in
    match syncRepositoryIndex lateFailure failingServer heap1 [] with
    | Some (_, heap, _, _) => heap
    | None => heap1
    end.

(** Only [y] gets to run: its fetch times out and is received first. *)
Definition onlyFailure : list label := [LSelect 1; LResolve 1; LRecv 1].

(** The goroutines after [y] has resolved to the timeout and cancelled the
    context: [x] and [z] have not evaluated their [select] yet. *)
Definition afterCancel : async :=
  Eval vm_compute in
    default (asyncInit index1 added1 [])
            (aexec failingServer added1 [LSelect 1; LResolve 1]
                   (asyncInit index1 added1 [])).

(** The run goes on from [afterCancel]: [x] and [z] see the cancelled
    context and the coordinator receives the timeout. *)
Definition afterCancelDrained : async :=
  Eval vm_compute in
    default afterCancel
            (aexec failingServer added1 [LSelect 0; LSelect 2; LRecv 1]
                   afterCancel).

(** The index and the trace after the three added objects of the healthy
    store were loaded one after the other. *)
Definition loadedIndex : IndexView :=
  Eval vm_compute in
    match addIndexObjectsAsync inOrder healthyServer index1 added1 [] with
    | Some (index, _, _) => index
    | None => index1
    end.

Definition loadedTrace : trace :=
  [EvWarnInvalidPackage "added" "z-1.0.0.tgz"; EvGetObject "z-1.0.0.tgz";
   EvWarnInvalidPackage "added" "y-1.0.0.tgz"; EvGetObject "y-1.0.0.tgz";
   EvGetObject "x-1.0.0.tgz"].

(** The index after [x] was updated and before the update of [y] failed. *)
Definition updatedOnce : IndexView :=
  Eval vm_compute in
    (forEachObject (updateIndexObject failingServer) added1 index1 []).1.1.

(** A store that cannot be reached. *)
Definition unreachableStore : Backend :=
  {| ListObjects := Err (ErrOther "connection refused");
     GetObject := fun _ => Err (ErrOther "connection refused") |}.

Definition offlineServer : Server := server unreachableStore cache1 index1.1.

(** Fetching the changed object [upd] times out. *)
Definition staleStore : Backend :=
  store listing1
        [("upd-1.0.0.tgz", Err (ErrOther "timeout")); ("x-1.0.0.tgz", Ok gz);
         ("y-1.0.0.tgz", Ok gz); ("z-1.0.0.tgz", Ok gz)].

Definition staleServer : Server := server staleStore cache1 index1.1.

(** The server [NewServer] builds on the healthy store, and the heap with
    the index file it allocated. *)
Definition startedServer : Server :=
  Eval vm_compute in
    match NewServer (seqSchedule 4) (options healthyStore) emptyHeap [] with
    | Some (ServerAt server, _, _, _) => server
    | _ => healthyServer
    end.

Definition startedHeap : IndexHeap :=
  Eval vm_compute in
    match NewServer (seqSchedule 4) (options healthyStore) emptyHeap [] with
    | Some (_, heap, _, _) => heap
    | None => emptyHeap
    end.

(** The heap after [NewServer] failed on the failing store: [upd] and [x]
    were loaded before the fetch of [y] timed out. *)
Definition failedStartHeap : IndexHeap :=
  Eval vm_compute in
    match NewServer (seqSchedule 4) (options failingStore) emptyHeap [] with
    | Some (_, heap, _, _) => heap
    | None => emptyHeap
    end.

(** The first caller has finished its regeneration, the second has not
    listed yet. *)
Definition oneFinished : process :=
  Eval vm_compute in
    default twoCallers
            (pexec [PList 0; PLock 0; PRegenerate 0 inOrder] twoCallers).

(** One caller on a server whose store cannot be reached. *)
Definition offlineCaller : process :=
  {| pserver := offlineServer; pheap := heap1; callers := [AtSync];
     ptrace := [] |}.

(** The keys of the entries a server shows on a heap. *)
Definition published (server : Server) (heap : IndexHeap)
  : list (string * string) :=
  (map_to_list (entries (RepositoryIndex server, heap))).*1.

(** What the examples show of a synchronisation: the keys of the index,
    the paths of the cache, the error and the fetched paths. *)
Definition summary (r : option (Server * IndexHeap * option error * trace))
  : option (list (string * string) * list string * option error * list string) :=
  match r with
  | Some (server, heap, e, tr) =>
      Some (published server heap, paths (StorageCache server), e,
            fetched tr)
  | None => None
  end.

End Fixture.

(** * Properties *)

(** ** The diff *)

Lemma hasPath_true os p : hasPath os p = true ↔ p ∈ paths os.
Proof. unfold hasPath. by rewrite bool_decide_eq_true. Qed.

Lemma hasPath_false os p : hasPath os p = false ↔ p ∉ paths os.
Proof. unfold hasPath. by rewrite bool_decide_eq_false. Qed.

Lemma elem_of_paths os p : p ∈ paths os ↔ ∃ o, o ∈ os ∧ Path o = p.
Proof.
  unfold paths. rewrite list_elem_of_fmap. split.
  - intros (o & -> & Ho). eauto.
  - intros (o & Ho & <-). eauto.
Qed.

Lemma markerChanged_true os o :
  markerChanged os o = true ↔
  ∃ o1, o1 ∈ os ∧ Path o1 = Path o ∧ Marker o1 ≠ Marker o.
Proof.
  unfold markerChanged. rewrite existsb_exists. split.
  - intros (o1 & Hin & H). apply andb_true_iff in H as [H1 H2].
    apply bool_decide_eq_true in H1. apply negb_true_iff in H2.
    apply bool_decide_eq_false in H2.
    exists o1. by rewrite list_elem_of_In.
  - intros (o1 & Hin & H1 & H2). exists o1. rewrite <- list_elem_of_In.
    split; [done|]. apply andb_true_iff. split.
    + by apply bool_decide_eq_true.
    + apply negb_true_iff. by apply bool_decide_eq_false.
Qed.

Lemma elem_of_Added os1 os2 o :
  o ∈ Added (GetObjectSliceDiff os1 os2) ↔ o ∈ os2 ∧ Path o ∉ paths os1.
Proof.
  simpl. rewrite list_elem_of_filter, hasPath_false. tauto.
Qed.

Lemma elem_of_Removed os1 os2 o :
  o ∈ Removed (GetObjectSliceDiff os1 os2) ↔ o ∈ os1 ∧ Path o ∉ paths os2.
Proof.
  simpl. rewrite list_elem_of_filter, hasPath_false. tauto.
Qed.

Lemma elem_of_Updated os1 os2 o :
  o ∈ Updated (GetObjectSliceDiff os1 os2) ↔
  o ∈ os2 ∧ ∃ o1, o1 ∈ os1 ∧ Path o1 = Path o ∧ Marker o1 ≠ Marker o.
Proof.
  simpl. rewrite list_elem_of_filter, markerChanged_true. tauto.
Qed.



(** Path by path, the new listing is the old one with the added and the
    updated paths, minus the removed ones. *)
Lemma diff_paths os1 os2 p :
  let diff := GetObjectSliceDiff os1 os2 in
  p ∈ paths os2 ↔
  (p ∈ paths os1 ∨ p ∈ paths (Added diff) ∨ p ∈ paths (Updated diff))
  ∧ p ∉ paths (Removed diff).
Proof.
  intros diff. subst diff. split.
  - intros Hp. split.
    + destruct (decide (p ∈ paths os1)) as [|Hn]; [by left|].
      right; left. apply elem_of_paths in Hp as (o & Ho & <-).
      apply elem_of_paths. exists o. split; [|done].
      by apply elem_of_Added.
    + rewrite elem_of_paths. intros (o & Ho & <-).
      apply elem_of_Removed in Ho as [_ Ho]. done.
  - intros [[H1 | [H | H]] Hr].
    + destruct (decide (p ∈ paths os2)) as [|Hn]; [done|].
      exfalso. apply Hr. apply elem_of_paths in H1 as (o & Ho & <-).
      apply elem_of_paths. exists o. split; [|done].
      by apply elem_of_Removed.
    + apply elem_of_paths in H as (o & Ho & <-).
      apply elem_of_Added in Ho as [Ho _]. apply elem_of_paths. eauto.
    + apply elem_of_paths in H as (o & Ho & <-).
      apply elem_of_Updated in Ho as [Ho _]. apply elem_of_paths. eauto.
Qed.


(** ** Resolution of single objects *)

Section Sequential.
Context `{storagePkg : StoragePackage} `{repoPkg : RepoPackage}
        `{indexMethods : !IndexMethods} `{zapPkg : ZapPackage}.
Implicit Types (server : Server) (index : IndexView) (tr : trace).

Lemma setLock_release server :
  StorageCacheLock server = false → setLock (setLock server true) false = server.
Proof. destruct server; simpl; intros ->; reflexivity. Qed.

Lemma checkInvalid_invalid object action tr :
  checkInvalidChartPackageError object ErrorInvalidChartPackage action tr
  = (None, EvWarnInvalidPackage action (Path object) :: tr).
Proof.
  unfold checkInvalidChartPackageError. by rewrite decide_True.
Qed.

Lemma checkInvalid_fatal object e action tr :
  e ≠ ErrorInvalidChartPackage →
  checkInvalidChartPackageError object e action tr = (Some e, tr).
Proof.
  intros He. unfold checkInvalidChartPackageError. by rewrite decide_False.
Qed.

Lemma checkInvalid_result object e action tr e' tr' :
  checkInvalidChartPackageError object e action tr = (Some e', tr') →
  e' = e ∧ e ≠ ErrorInvalidChartPackage ∧ tr' = tr.
Proof.
  unfold checkInvalidChartPackageError. case_decide; naive_solver.
Qed.

Lemma checkInvalid_fetched object e action tr :
  fetched (checkInvalidChartPackageError object e action tr).2 = fetched tr.
Proof.
  unfold checkInvalidChartPackageError. by case_decide.
Qed.

Lemma getObjectChartVersion_descriptor server object tr :
  getObjectChartVersion server object false tr
  = (ChartVersionFromStorageObject object, tr).
Proof. reflexivity. Qed.

Lemma getObjectChartVersion_load_fetched server object tr :
  fetched (getObjectChartVersion server object true tr).2
  = Path object :: fetched tr.
Proof.
  unfold getObjectChartVersion. repeat case_match; done.
Qed.

(** The value [getObjectChartVersion] returns does not depend on the trace
    it extends. *)
Lemma getObjectChartVersion_value server object load tr1 tr2 :
  (getObjectChartVersion server object load tr1).1
  = (getObjectChartVersion server object load tr2).1.
Proof.
  unfold getObjectChartVersion. repeat case_match; done.
Qed.

Lemma removeIndexObject_unfold server index object tr :
  removeIndexObject server index object tr =
  match ChartVersionFromStorageObject object with
  | Ok chartVersion => (RemoveEntry index chartVersion, None, tr)
  | Err e =>
      (index, (checkInvalidChartPackageError object e "removed" tr).1,
       (checkInvalidChartPackageError object e "removed" tr).2)
  end.
Proof.
  unfold removeIndexObject. rewrite getObjectChartVersion_descriptor.
  destruct (ChartVersionFromStorageObject object); [done|].
  by destruct (checkInvalidChartPackageError _ _ _ _).
Qed.

Lemma removeIndexObject_fetched server index object tr :
  fetched (removeIndexObject server index object tr).2 = fetched tr.
Proof.
  rewrite removeIndexObject_unfold.
  destruct (ChartVersionFromStorageObject object); [done|].
  apply checkInvalid_fetched.
Qed.

Lemma updateIndexObject_fetched server index object tr :
  fetched (updateIndexObject server index object tr).2
  = Path object :: fetched tr.
Proof.
  unfold updateIndexObject.
  pose proof (getObjectChartVersion_load_fetched server object tr) as H.
  destruct (getObjectChartVersion server object true tr) as [[cv|e] tr1];
    simpl in *; [done|].
  pose proof (checkInvalid_fetched object e "updated" tr1) as H'.
  destruct (checkInvalidChartPackageError _ _ _ _); simpl in *. congruence.
Qed.



(** *** Loops over a diff set *)


Lemma forEachObject_fetched body objects index tr (extra : Object → list string) :
  (∀ index object tr,
      fetched (body index object tr).2 = extra object ++ fetched tr) →
  ∀ p, p ∈ fetched (forEachObject body objects index tr).2 →
       p ∈ fetched tr ∨ ∃ o, o ∈ objects ∧ p ∈ extra o.
Proof.
  intros Hbody. revert index tr.
  induction objects as [|o rest IH]; simpl; intros index tr p; [by left|].
  pose proof (Hbody index o tr) as Hb.
  destruct (body index o tr) as [[index1 [e1|]] tr1]; simpl in *.
  - rewrite Hb, elem_of_app. intros [H|H]; [right|by left].
    exists o. split; [apply list_elem_of_here|done].
  - intros H. apply IH in H as [H|(o' & Ho' & H)].
    + rewrite Hb, elem_of_app in H. destruct H as [H|H]; [right|by left].
      exists o. split; [apply list_elem_of_here|done].
    + right. exists o'. split; [by apply list_elem_of_further|done].
Qed.






End Sequential.

(** ** The goroutine system *)

Lemma tally_insert {A} (f : A → nat) (gs : list A) i g g' :
  gs !! i = Some g → tally f (<[i := g']> gs) + f g = tally f gs + f g'.
Proof.
  revert i. induction gs as [|g0 gs IH]; intros [|i]; simpl; try done.
  - intros [= ->]. lia.
  - intros H. specialize (IH _ H). lia.
Qed.

Lemma tally_isDelivered_le gs : tally isDelivered gs ≤ length gs.
Proof.
  induction gs as [|g gs IH]; simpl; [lia|]. destruct g; simpl; lia.
Qed.

Lemma tally_isDelivered_full gs i g :
  tally isDelivered gs = length gs → gs !! i = Some g → ∃ r, g = GDelivered r.
Proof.
  revert i. induction gs as [|g0 gs IH]; intros [|i]; simpl; try done.
  - intros H [= ->]. pose proof (tally_isDelivered_le gs).
    destruct g; simpl in *; try lia. eauto.
  - intros H Hi. apply (IH i); [|done].
    pose proof (tally_isDelivered_le gs). destruct g0; simpl in *; lia.
Qed.

Lemma tally_isDelivered_lt gs :
  tally isDelivered gs < length gs →
  ∃ i g, gs !! i = Some g ∧ isDelivered g = 0.
Proof.
  induction gs as [|g0 gs IH]; simpl; [lia|]. intros H.
  destruct (isDelivered g0) eqn:Hg.
  - exists 0, g0. done.
  - assert (isDelivered g0 = 1) by (destruct g0; simpl in *; lia).
    destruct IH as (i & g & Hi & Hg'); [lia|]. exists (S i), g. done.
Qed.

Section Async.
Context `{storagePkg : StoragePackage} `{repoPkg : RepoPackage}
        `{indexMethods : !IndexMethods} `{zapPkg : ZapPackage}.
Implicit Types (server : Server) (index : IndexView) (tr : trace) (s : async).

Lemma resolveAdded_outcome server o tr :
  (resolveAdded server o tr).1 = outcome server o.
Proof.
  unfold outcome, resolveAdded.
  pose proof (getObjectChartVersion_value server o true tr []) as H.
  destruct (getObjectChartVersion server o true tr) as [[c|e] tr1];
    destruct (getObjectChartVersion server o true []) as [[c'|e'] tr2];
    simpl in H; simplify_eq; [done|].
  unfold checkInvalidChartPackageError. by case_decide.
Qed.

Lemma resolveAdded_fetched server o tr :
  fetched (resolveAdded server o tr).2 = Path o :: fetched tr.
Proof.
  unfold resolveAdded.
  pose proof (getObjectChartVersion_load_fetched server o tr) as H.
  destruct (getObjectChartVersion server o true tr) as [[c|e] tr1];
    simpl in *; [done|].
  pose proof (checkInvalid_fetched o e "added" tr1) as H'.
  destruct (checkInvalidChartPackageError _ _ _ _); simpl in *. congruence.
Qed.

(** A goroutine never sends [ErrorInvalidChartPackage]. *)
Lemma outcome_error server o :
  err (outcome server o) ≠ Some ErrorInvalidChartPackage.
Proof.
  unfold outcome, resolveAdded.
  destruct (getObjectChartVersion server o true []) as [[c|e] tr1]; [done|].
  destruct (checkInvalidChartPackageError _ _ _ _) as [[e1|] tr2] eqn:Hc;
    [|done].
  apply checkInvalid_result in Hc as (-> & ? & _). simpl. congruence.
Qed.

(** An outcome carries a chart version or an error, never both. *)
Lemma outcome_shape server o :
  cv (outcome server o) = None ∨ err (outcome server o) = None.
Proof.
  unfold outcome, resolveAdded.
  destruct (getObjectChartVersion server o true []) as [[c|e] tr1];
    [by right|].
  destruct (checkInvalidChartPackageError _ _ _ _). by left.
Qed.

Lemma ainv_init server index objects tr :
  0 < length objects → ainv server objects (asyncInit index objects tr).
Proof.
  intros Hlen. unfold ainv, coordInv, asyncInit, delivered; simpl.
  rewrite length_replicate. split_and!; try done.
  - intros i r [H|H]; apply lookup_replicate in H as [? _]; done.
  - clear. induction (length objects); simpl; [done|]. by rewrite <- IHn.
  - intros i r H. apply lookup_replicate in H as [? _]; done.
  - intros i H. apply lookup_replicate in H as [? _]; done.
Qed.

Lemma receive_gos n k r s : gos (receive n k r s) = gos s.
Proof. unfold receive. repeat case_match; done. Qed.

Lemma receive_atrace n k r s : atrace (receive n k r s) = atrace s.
Proof. unfold receive. repeat case_match; done. Qed.

Lemma ainv_step server objects l s s' :
  ainv server objects s → astep server objects l s = Some s' →
  ainv server objects s'.
Proof.
  intros (Hlen & Hout & Hc) Hstep. destruct l as [i|i|i]; simpl in Hstep.
  - (* the select *)
    destruct (gos s !! i) as [[]|] eqn:Hi; simplify_eq.
    set (g := if ctxDone s then GCancelled else GWorking).
    assert (Hg : ∀ r, g ≠ GSending r ∧ g ≠ GDelivered r)
      by (subst g; destruct (ctxDone s); done).
    assert (Hlook : ∀ j x, <[i:=g]> (gos s) !! j = Some x →
                           (j = i ∧ x = g) ∨ (j ≠ i ∧ gos s !! j = Some x)).
    { intros j x H. apply list_lookup_insert_Some in H.
      destruct H as [(-> & <- & _)|[? ?]]; auto. }
    unfold ainv, coordInv, delivered, setGo in *; simpl in *.
    split_and!.
    + by rewrite length_insert.
    + intros j r [H|H]; apply Hlook in H as [[-> H]|[? H]];
        try (by destruct (Hg r) as [? ?]); eauto.
    + destruct (coord s) as [n|[e|]].
      * destruct Hc as (Hn & Hlt & Hd & Hcan & Hcd). split_and!; try done.
        -- pose proof (tally_insert isDelivered _ _ _ g Hi) as Ht.
           simpl in Ht. assert (isDelivered g = 0)
             by (subst g; destruct (ctxDone s); done). lia.
        -- intros j r H. apply Hlook in H as [[-> H]|[? H]]; [|eauto].
           by destruct (Hg r).
        -- intros Hdone. destruct (Hcan Hdone) as (k & r & Hk & Hr).
           exists k, r. split; [|done].
           rewrite list_lookup_insert_ne; [done|]. congruence.
        -- intros j H. apply Hlook in H as [[-> H]|[? H]]; [|eauto].
           subst g. by destruct (ctxDone s).
      * destruct Hc as (Hdone & k & r & Hk & Hr & Hoth).
        split; [done|]. exists k, r. split_and!; try done.
        -- rewrite list_lookup_insert_ne; [done|]. congruence.
        -- intros j r' Hj H. apply Hlook in H as [[-> H]|[? H]]; [|eauto].
           by destruct (Hg r').
      * destruct Hc as (Hdone & Hall). exfalso.
        destruct (Hall i) as (r & Hr & _); [|congruence].
        rewrite <- Hlen. by eapply lookup_lt_Some.
  - (* the resolution *)
    destruct (gos s !! i) as [[]|] eqn:Hi; simplify_eq.
    destruct (objects !! i) as [o|] eqn:Ho; simplify_eq.
    pose proof (resolveAdded_outcome server o (atrace s)) as Hr.
    destruct (resolveAdded server o (atrace s)) as [r tr1]; simpl in Hr.
    simplify_eq.
    set (r := outcome server o).
    assert (Hlook : ∀ j x, <[i:=GSending r]> (gos s) !! j = Some x →
              (j = i ∧ x = GSending r) ∨ (j ≠ i ∧ gos s !! j = Some x)).
    { intros j x H. apply list_lookup_insert_Some in H.
      destruct H as [(-> & <- & _)|[? ?]]; auto. }
    assert (Hi' : <[i:=GSending r]> (gos s) !! i = Some (GSending r)).
    { apply list_lookup_insert_eq. by eapply lookup_lt_Some. }
    unfold ainv, coordInv, delivered in *; simpl in *.
    split_and!.
    + by rewrite length_insert.
    + intros j r' [H|H]; apply Hlook in H as [[-> H]|[? H]];
        simplify_eq; eauto.
    + destruct (coord s) as [n|[e|]].
      * destruct Hc as (Hn & Hlt & Hd & Hcan & Hcd). split_and!; try done.
        -- pose proof (tally_insert isDelivered _ _ _ (GSending r) Hi) as Ht.
           simpl in Ht. lia.
        -- intros j r' H. apply Hlook in H as [[-> H]|[? H]]; [done|eauto].
        -- intros Hdone. apply orb_true_iff in Hdone as [Hdone|Hdone].
           ++ destruct (Hcan Hdone) as (k & r' & Hk & Hr').
              exists k, r'. split; [|done].
              rewrite list_lookup_insert_ne; [done|]. congruence.
           ++ apply bool_decide_eq_true in Hdone. eauto.
        -- intros j H. apply Hlook in H as [[-> H]|[? H]]; [done|].
           apply orb_true_iff. left. eauto.
      * destruct Hc as (Hdone & k & r' & Hk & Hr' & Hoth).
        split; [by rewrite Hdone|]. exists k, r'. split_and!; try done.
        -- rewrite list_lookup_insert_ne; [done|]. congruence.
        -- intros j r'' Hj H. apply Hlook in H as [[-> H]|[? H]]; [done|eauto].
      * destruct Hc as (Hdone & Hall). exfalso.
        destruct (Hall i) as (r' & Hr' & _); [|congruence].
        rewrite <- Hlen. by eapply lookup_lt_Some.
  - (* the receive *)
    destruct (gos s !! i) as [[| |r| |]|] eqn:Hi; simplify_eq.
    unfold coordInv in Hc.
    destruct (coord s) as [n|] eqn:Hco; simplify_eq.
    destruct Hc as (Hn & Hlt & Hd & Hcan & Hcd).
    assert (Hlook : ∀ j x, <[i:=GDelivered r]> (gos s) !! j = Some x →
              (j = i ∧ x = GDelivered r) ∨ (j ≠ i ∧ gos s !! j = Some x)).
    { intros j x H. apply list_lookup_insert_Some in H.
      destruct H as [(-> & <- & _)|[? ?]]; auto. }
    assert (Hi' : <[i:=GDelivered r]> (gos s) !! i = Some (GDelivered r)).
    { apply list_lookup_insert_eq. by eapply lookup_lt_Some. }
    pose proof (tally_insert isDelivered _ _ _ (GDelivered r) Hi) as Ht.
    simpl in Ht.
    unfold ainv. rewrite receive_gos. simpl. split_and!.
    + by rewrite length_insert.
    + intros j r' [H|H]; apply Hlook in H as [[-> H]|[? H]];
        simplify_eq; eauto.
    + unfold coordInv, receive, delivered. simpl.
      destruct (err r) as [e|] eqn:He; simpl.
      * split; [done|]. exists i, r. split_and!; try done.
        intros j r' Hj H. apply Hlook in H as [[-> H]|[? H]]; [done|eauto].
      * destruct (S n <? length objects) eqn:Hlt'; simpl.
        -- apply Nat.ltb_lt in Hlt'. unfold delivered in Hn.
           split_and!; try done.
           ++ lia.
           ++ intros j r' H. apply Hlook in H as [[-> H]|[? H]];
                simplify_eq; eauto.
           ++ intros Hdone. destruct (Hcan Hdone) as (k & r' & Hk & Hr').
              exists k, r'. split; [|done].
              rewrite list_lookup_insert_ne; [done|].
              intros ->. rewrite Hi in Hk. simplify_eq.
              rewrite He in Hr'. by destruct Hr'.
           ++ intros j H. apply Hlook in H as [[-> H]|[? H]]; [done|eauto].
        -- apply Nat.ltb_ge in Hlt'. unfold delivered in Hn.
           split; [done|]. intros j Hj.
           pose proof (tally_isDelivered_le (<[i:=GDelivered r]> (gos s))) as Hle.
           rewrite length_insert in Hle.
           assert (Hfull : tally isDelivered (<[i:=GDelivered r]> (gos s))
                           = length (<[i:=GDelivered r]> (gos s))).
           { rewrite length_insert. lia. }
           destruct (lookup_lt_is_Some_2 (<[i:=GDelivered r]> (gos s)) j)
             as [g Hg]; [rewrite length_insert; lia|].
           destruct (tally_isDelivered_full _ _ _ Hfull Hg) as [r' ->].
           exists r'. split; [done|].
           apply Hlook in Hg as [[-> H]|[? H]]; simplify_eq; eauto.
Qed.

Lemma ainv_aexec server objects sched s s' :
  ainv server objects s → aexec server objects sched s = Some s' →
  ainv server objects s'.
Proof.
  revert s. induction sched as [|l sched IH]; simpl; intros s Hinv.
  - by intros [= <-].
  - destruct (astep server objects l s) as [s1|] eqn:Hs; [|done].
    eauto using ainv_step.
Qed.

Lemma ainv_reachable server index objects tr s :
  0 < length objects → areachable server index objects tr s →
  ainv server objects s.
Proof.
  intros Hlen [sched H]. eapply ainv_aexec; [|exact H]. by apply ainv_init.
Qed.

(** [arun] follows a prefix of its schedule and stops at a return. *)
Lemma arun_aexec server objects sched s s' :
  arun server objects sched s = Some s' →
  (∃ e, coord s' = CReturned e)
  ∧ ∃ sched', sched' `prefix_of` sched
              ∧ aexec server objects sched' s = Some s'.
Proof.
  revert s. induction sched as [|l sched IH]; simpl; intros s.
  - destruct (coord s) eqn:Hc; [done|]. intros [= <-].
    split; [eauto|]. exists []. done.
  - destruct (coord s) eqn:Hc.
    + destruct (astep server objects l s) as [s1|] eqn:Hs; [|done].
      intros H. apply IH in H as (He & sched' & Hp & Hx).
      split; [done|]. exists (l :: sched'). split.
      * by apply prefix_cons.
      * simpl. by rewrite Hs.
    + intros [= <-]. split; [eauto|]. exists []. split; [|done].
      apply prefix_nil.
Qed.

(** While the coordinator is receiving, some step is enabled: the system
    cannot get stuck before the coordinator returns. *)
Lemma astep_progress server objects s n :
  ainv server objects s → coord s = CReceiving n →
  ∃ l s', astep server objects l s = Some s'.
Proof.
  intros (Hlen & Hout & Hc) Hco. unfold coordInv in Hc. rewrite Hco in Hc.
  destruct Hc as (Hn & Hlt & Hd & Hcan & Hcd).
  destruct (tally_isDelivered_lt (gos s)) as (i & g & Hi & Hg).
  { unfold delivered in Hn. lia. }
  assert (Hsend : ∀ j r, gos s !! j = Some (GSending r) →
                         ∃ l s', astep server objects l s = Some s').
  { intros j r Hj. exists (LRecv j). simpl. rewrite Hj, Hco. eauto. }
  destruct g as [| |r|r|]; try done.
  - exists (LSelect i). simpl. rewrite Hi. eauto.
  - destruct (lookup_lt_is_Some_2 objects i) as [o Ho].
    { rewrite <- Hlen. by eapply lookup_lt_Some. }
    exists (LResolve i). simpl. rewrite Hi, Ho.
    destruct (resolveAdded server o (atrace s)). eauto.
  - eauto.
  - destruct (Hcan (Hcd _ Hi)) as (k & r & Hk & _). eauto.
Qed.

(** Every step uses up one of the at most three steps of a goroutine. *)
Lemma astep_measure server objects l s s' :
  astep server objects l s = Some s' → measure s' < measure s.
Proof.
  unfold measure. destruct l as [i|i|i]; simpl.
  - destruct (gos s !! i) as [[]|] eqn:Hi; try done. intros [= <-]. simpl.
    pose proof (tally_insert rank _ _ _
                  (if ctxDone s then GCancelled else GWorking) Hi) as H.
    destruct (ctxDone s); simpl in H; lia.
  - destruct (gos s !! i) as [[]|] eqn:Hi; try done.
    destruct (objects !! i) as [o|]; [|done].
    destruct (resolveAdded server o (atrace s)) as [r tr1].
    intros [= <-]. simpl.
    pose proof (tally_insert rank _ _ _ (GSending r) Hi) as H.
    simpl in H; lia.
  - destruct (gos s !! i) as [[| |r| |]|] eqn:Hi; try done.
    destruct (coord s); [|done]. intros [= <-]. rewrite receive_gos. simpl.
    pose proof (tally_insert rank _ _ _ (GDelivered r) Hi) as H.
    simpl in H; lia.
Qed.

(** From every state of the invariant some schedule brings the
    coordinator to its return. *)
Lemma arun_total server objects s :
  ainv server objects s →
  ∃ sched s', arun server objects sched s = Some s'.
Proof.
  remember (measure s) as m eqn:Hm. revert s Hm.
  induction (lt_wf m) as [m _ IH]. intros s -> Hinv.
  destruct (coord s) as [n|e] eqn:Hco.
  - destruct (astep_progress _ _ _ _ Hinv Hco) as (l & s1 & Hs).
    destruct (IH (measure s1)) with (s := s1) as (sched & s' & Hr).
    + by eapply astep_measure.
    + done.
    + by eapply ainv_step.
    + exists (l :: sched), s'. simpl. by rewrite Hco, Hs.
  - exists [], s. simpl. by rewrite Hco.
Qed.

(** Once the coordinator has returned it receives nothing more: its
    result, its index and the number of delivered outcomes are final, and
    a goroutine blocked in its send stays blocked. *)
Lemma astep_after_return server objects l s s' e :
  coord s = CReturned e → astep server objects l s = Some s' →
  coord s' = CReturned e ∧ aindex s' = aindex s ∧ delivered s' = delivered s
  ∧ ∀ i r, gos s !! i = Some (GSending r) → gos s' !! i = Some (GSending r).
Proof.
  intros Hco. unfold delivered. destruct l as [i|i|i]; simpl.
  - destruct (gos s !! i) as [[]|] eqn:Hi; try done. intros [= <-]. simpl.
    pose proof (tally_insert isDelivered _ _ _
                  (if ctxDone s then GCancelled else GWorking) Hi) as H.
    split_and!; try done.
    + destruct (ctxDone s); simpl in H; lia.
    + intros j r Hj. rewrite list_lookup_insert_ne; [done|]. congruence.
  - destruct (gos s !! i) as [[]|] eqn:Hi; try done.
    destruct (objects !! i) as [o|]; [|done].
    destruct (resolveAdded server o (atrace s)) as [r tr1].
    intros [= <-]. simpl.
    pose proof (tally_insert isDelivered _ _ _ (GSending r) Hi) as H.
    split_and!; try done.
    + simpl in H; lia.
    + intros j r' Hj. rewrite list_lookup_insert_ne; [done|]. congruence.
  - destruct (gos s !! i) as [[| |r| |]|] eqn:Hi; try done.
    by rewrite Hco.
Qed.

Lemma aexec_after_return server objects sched s s' e :
  coord s = CReturned e → aexec server objects sched s = Some s' →
  coord s' = CReturned e ∧ aindex s' = aindex s ∧ delivered s' = delivered s
  ∧ ∀ i r, gos s !! i = Some (GSending r) → gos s' !! i = Some (GSending r).
Proof.
  revert s. induction sched as [|l sched IH]; simpl; intros s Hco.
  - by intros [= <-].
  - destruct (astep server objects l s) as [s1|] eqn:Hs; [|done].
    destruct (astep_after_return _ _ _ _ _ _ Hco Hs) as (H1 & H2 & H3 & H4).
    intros H. destruct (IH _ H1 H) as (H1' & H2' & H3' & H4').
    split_and!; try congruence. eauto.
Qed.

(** Only the objects handed to the goroutines are fetched. *)
Lemma astep_fetched server objects l s s' p :
  astep server objects l s = Some s' → p ∈ fetched (atrace s') →
  p ∈ fetched (atrace s) ∨ p ∈ paths objects.
Proof.
  destruct l as [i|i|i]; simpl.
  - destruct (gos s !! i) as [[]|]; try done. intros [= <-]. by left.
  - destruct (gos s !! i) as [[]|]; try done.
    destruct (objects !! i) as [o|] eqn:Ho; [|done].
    pose proof (resolveAdded_fetched server o (atrace s)) as Hf.
    destruct (resolveAdded server o (atrace s)) as [r tr1].
    intros [= <-]. simpl in *. rewrite Hf.
    intros [->|H]%elem_of_cons; [right|by left].
    apply elem_of_paths. exists o. split; [|done].
    by eapply list_elem_of_lookup_2.
  - destruct (gos s !! i) as [[| |r| |]|]; try done.
    destruct (coord s); [|done]. intros [= <-].
    rewrite receive_atrace. by left.
Qed.

Lemma aexec_fetched server objects sched s s' p :
  aexec server objects sched s = Some s' → p ∈ fetched (atrace s') →
  p ∈ fetched (atrace s) ∨ p ∈ paths objects.
Proof.
  revert s. induction sched as [|l sched IH]; simpl; intros s.
  - intros [= <-]. by left.
  - destruct (astep server objects l s) as [s1|] eqn:Hs; [|done].
    intros H Hp. destruct (IH _ H Hp) as [H1|H1]; [|by right].
    eauto using astep_fetched.
Qed.

(** *** What [addIndexObjectsAsync] returns *)

Lemma addIndexObjectsAsync_nil sched server index tr :
  addIndexObjectsAsync sched server index [] tr = Some (index, None, tr).
Proof. done. Qed.

Lemma addIndexObjectsAsync_inv sched server index objects tr index' e tr' :
  0 < length objects →
  addIndexObjectsAsync sched server index objects tr = Some (index', e, tr') →
  ∃ s, areachable server index objects tr s ∧ ainv server objects s
       ∧ coord s = CReturned e ∧ aindex s = index' ∧ atrace s = tr'.
Proof.
  intros Hlen. unfold addIndexObjectsAsync.
  destruct (Nat.eqb_spec (length objects) 0) as [|_]; [lia|].
  destruct (arun _ _ _ _) as [s|] eqn:Hr; [|done].
  destruct (coord s) as [|e0] eqn:Hco; [done|]. intros [= <- <- <-].
  apply arun_aexec in Hr as (_ & sched' & _ & Hx).
  exists s. split_and!; try done.
  - by exists sched'.
  - eapply ainv_reachable; [done|]. by exists sched'.
Qed.


Lemma addIndexObjectsAsync_fetched sched server index objects tr index' e tr' p :
  addIndexObjectsAsync sched server index objects tr = Some (index', e, tr') →
  p ∈ fetched tr' → p ∈ fetched tr ∨ p ∈ paths objects.
Proof.
  destruct objects as [|o objects].
  - intros [= <- <- <-]. by left.
  - intros H. apply addIndexObjectsAsync_inv in H
      as (s & [sched' Hx] & _ & _ & _ & <-); [|simpl; lia].
    intros Hp. by apply (aexec_fetched _ _ _ _ _ _ Hx) in Hp.
Qed.

(** Some interleaving brings [addIndexObjectsAsync] to its return. *)
Lemma addIndexObjectsAsync_total server index objects tr :
  ∃ sched r, addIndexObjectsAsync sched server index objects tr = Some r.
Proof.
  destruct objects as [|o objects]; [by exists [], (index, None, tr)|].
  destruct (arun_total server (o :: objects)
              (asyncInit index (o :: objects) tr)) as (sched & s & Hr).
  { apply ainv_init. simpl; lia. }
  exists sched. unfold addIndexObjectsAsync. simpl length. simpl Nat.eqb.
  rewrite Hr. apply arun_aexec in Hr as ([e He] & _). rewrite He. eauto.
Qed.

End Async.

(** ** Regeneration *)

Section Regeneration.
Context `{storagePkg : StoragePackage} `{repoPkg : RepoPackage}
        `{indexMethods : !IndexMethods} `{zapPkg : ZapPackage}.
Implicit Types (server : Server) (index : IndexView) (heap : IndexHeap).
Implicit Types (tr : trace).

Lemma index_copy (published : Index) : copyIndex published = published.
Proof. by destruct published. Qed.

Lemma publish_release server (published : Index) objects :
  StorageCacheLock server = false →
  setLock (publish (setLock server true) published objects) false
  = publish server published objects.
Proof. destruct server; simpl; intros ->; reflexivity. Qed.

Lemma listObjectsGetDiff_ok server tr objects diff tr' :
  listObjectsGetDiff server tr = (objects, diff, None, tr') →
  ∃ allObjects,
    ListObjects (StorageBackend server) = Ok allObjects
    ∧ objects = filterObjects allObjects
    ∧ diff = GetObjectSliceDiff (StorageCache server) objects
    ∧ tr' = EvListObjects :: tr.
Proof.
  unfold listObjectsGetDiff.
  destruct (ListObjects (StorageBackend server)) as [allObjects|e]; [|done].
  intros [= <- <- <-]. eauto.
Qed.

Lemma listObjectsGetDiff_fetched server tr :
  fetched (listObjectsGetDiff server tr).2 = fetched tr.
Proof.
  unfold listObjectsGetDiff.
  by destruct (ListObjects (StorageBackend server)).
Qed.

(** A regeneration that fails assigns no field of the server. *)
Lemma regenerateBody_failure sched server heap tr server' heap' e tr' :
  regenerateBody sched server heap tr = Some (server', heap', Some e, tr') →
  server' = server.
Proof.
  unfold regenerateBody. intros H.
  repeat (case_match; simplify_eq); done.
Qed.

(** A regeneration that succeeds publishes an index together with the
    filtered listing it observed. *)
Lemma regenerateBody_success sched server heap tr server' heap' tr' :
  regenerateBody sched server heap tr = Some (server', heap', None, tr') →
  ∃ allObjects (published : Index),
    ListObjects (StorageBackend server) = Ok allObjects
    ∧ server' = publish server published (filterObjects allObjects).
Proof.
  unfold regenerateBody.
  destruct (listObjectsGetDiff server tr) as [[[objects diff] [e|]] tr1] eqn:Hl;
    [done|].
  apply listObjectsGetDiff_ok in Hl as (allObjects & Hall & -> & _ & _).
  intros H. exists allObjects.
  repeat (case_match; simplify_eq); eauto.
Qed.

Lemma regenerateBody_lock sched server heap tr server' heap' e tr' :
  regenerateBody sched server heap tr = Some (server', heap', e, tr') →
  StorageCacheLock server' = StorageCacheLock server.
Proof.
  destruct e as [e|]; intros H.
  - by apply regenerateBody_failure in H as ->.
  - by apply regenerateBody_success in H as (? & ? & _ & ->).
Qed.

Lemma regenerate_failure sched server heap tr server' heap' e tr' :
  regenerateRepositoryIndex sched server heap tr
  = Some (server', heap', Some e, tr') →
  server' = server.
Proof.
  unfold regenerateRepositoryIndex.
  destruct (StorageCacheLock server) eqn:Hlock; [done|].
  destruct (regenerateBody _ _ _ _) as [[[[server1 heap1] e1] tr1]|] eqn:Hb;
    [|done].
  intros [= <- _ -> _]. apply regenerateBody_failure in Hb as ->.
  by apply setLock_release.
Qed.

Lemma regenerate_success sched server heap tr server' heap' tr' :
  regenerateRepositoryIndex sched server heap tr
  = Some (server', heap', None, tr') →
  StorageCacheLock server = false
  ∧ ∃ allObjects (published : Index),
      ListObjects (StorageBackend server) = Ok allObjects
      ∧ server' = publish server published (filterObjects allObjects).
Proof.
  unfold regenerateRepositoryIndex.
  destruct (StorageCacheLock server) eqn:Hlock; [done|].
  destruct (regenerateBody _ _ _ _) as [[[[server1 heap1] e1] tr1]|] eqn:Hb;
    [|done].
  intros [= <- _ -> _]. split; [done|].
  apply regenerateBody_success in Hb as (allObjects & published & Hall & ->).
  exists allObjects, published. split; [done|]. by apply publish_release.
Qed.

(** The lock is free again when [regenerateRepositoryIndex] returns,
    whatever it returns. *)
Lemma regenerate_unlocks sched server heap tr server' heap' e tr' :
  regenerateRepositoryIndex sched server heap tr
  = Some (server', heap', e, tr') →
  StorageCacheLock server' = false.
Proof.
  unfold regenerateRepositoryIndex.
  destruct (StorageCacheLock server); [done|].
  destruct (regenerateBody _ _ _ _) as [[[[server1 heap1] e1] tr1]|]; [|done].
  by intros [= <- _ _ _].
Qed.

(** Under some interleaving of the goroutines the regeneration returns. *)
Lemma regenerateBody_total server heap tr :
  ∃ sched r, regenerateBody sched server heap tr = Some r.
Proof.
  unfold regenerateBody.
  destruct (listObjectsGetDiff server tr) as [[[objects diff] [e|]] tr1];
    [by exists [], (server, heap, Some e, tr1)|].
  destruct (forEachObject (removeIndexObject server) _ _ _)
    as [[index1 [e|]] tr2]; [by exists [], (server, index1.2, Some e, tr2)|].
  destruct (forEachObject (updateIndexObject server) _ _ _)
    as [[index2 [e|]] tr3]; [by exists [], (server, index2.2, Some e, tr3)|].
  destruct (addIndexObjectsAsync_total server index2 (Added diff) tr3)
    as (sched & [[index3 e] tr4] & Ha).
  exists sched. rewrite Ha. destruct e as [e|]; [eauto|].
  destruct (Regenerate index3) as [index4 [e|]]; eauto.
Qed.

Lemma regenerate_total server heap tr :
  StorageCacheLock server = false →
  ∃ sched r, regenerateRepositoryIndex sched server heap tr = Some r.
Proof.
  intros Hlock. unfold regenerateRepositoryIndex. rewrite Hlock.
  destruct (regenerateBody_total (setLock server true) heap tr)
    as (sched & [[[server1 heap1] e] tr1] & Hb).
  exists sched. rewrite Hb. eauto.
Qed.

Lemma sync_failure sched server heap tr server' heap' e tr' :
  syncRepositoryIndex sched server heap tr
  = Some (server', heap', Some e, tr') →
  server' = server.
Proof.
  unfold syncRepositoryIndex.
  destruct (listObjectsGetDiff server tr) as [[[objects diff] [e0|]] tr1].
  - by intros [= <- _ _ _].
  - destruct (Change diff); simpl; [|done]. apply regenerate_failure.
Qed.

Lemma sync_total server heap tr :
  StorageCacheLock server = false →
  ∃ sched r, syncRepositoryIndex sched server heap tr = Some r.
Proof.
  intros Hlock. unfold syncRepositoryIndex.
  destruct (listObjectsGetDiff server tr) as [[[objects diff] [e|]] tr1];
    [by exists [], (server, heap, Some e, tr1)|].
  destruct (Change diff); simpl; [|by exists [], (server, heap, None, tr1)].
  by apply regenerate_total.
Qed.

(** [NewServer] returns under some interleaving of the goroutines. *)
Lemma NewServer_total options heap tr :
  ∃ sched r, NewServer sched options heap tr = Some r.
Proof.
  unfold NewServer.
  destruct (NewLogger _ _) as [logger [e|]];
    [by exists [], (ZeroServer, heap, None, tr)|].
  destruct (regenerate_total (buildServer options logger heap)
              (NewIndex (OptChartURL options) heap).2 tr eq_refl)
    as (sched & [[[server heap1] e] tr1] & Hr).
  exists sched. rewrite Hr. eauto.
Qed.

End Regeneration.

(** ** The published state after a failure, a skip and a success *)

Section Synchronizer.
Context `{storagePkg : StoragePackage} `{repoPkg : RepoPackage}
        `{indexMethods : !IndexMethods} `{zapPkg : ZapPackage}.
Implicit Types (server : Server) (index : IndexView) (heap : IndexHeap).
Implicit Types (tr : trace).

(** C8.  Snapshot baseline after success: when [regenerateRepositoryIndex]
    returns nil, [StorageCache] is the extension-filtered listing the
    regeneration observed; path by path this is the old cache with the
    added and updated paths, minus the removed ones. *)
Theorem successful_regeneration_records_listing
    sched server heap tr server' heap' tr' :
  regenerateRepositoryIndex sched server heap tr
  = Some (server', heap', None, tr') →
  ∃ allObjects,
    ListObjects (StorageBackend server) = Ok allObjects
    ∧ StorageCache server' = filterObjects allObjects
    ∧ ∀ p,
        let diff := GetObjectSliceDiff (StorageCache server)
                                       (filterObjects allObjects) in
        p ∈ paths (StorageCache server') ↔
        (p ∈ paths (StorageCache server) ∨ p ∈ paths (Added diff)
         ∨ p ∈ paths (Updated diff))
        ∧ p ∉ paths (Removed diff).
Proof.
  intros H.
  apply regenerate_success in H as (_ & allObjects & published & Hall & ->).
  exists allObjects. split_and!; [done..|]. intros p. apply diff_paths.
Qed.



End Synchronizer.

(** ** Filtering, resolution and invalid packages *)

Section Resolver.
Context `{storagePkg : StoragePackage} `{repoPkg : RepoPackage}
        `{indexMethods : !IndexMethods} `{zapPkg : ZapPackage}.
Implicit Types (server : Server) (index : IndexView) (heap : IndexHeap).
Implicit Types (tr : trace).

Lemma filterObjects_elem allObjects o :
  o ∈ filterObjects allObjects ↔
  HasExtension o ChartPackageFileExtension = true ∧ o ∈ allObjects.
Proof. unfold filterObjects. by rewrite list_elem_of_filter. Qed.

Lemma sync_cache sched server heap tr server' heap' e tr' :
  syncRepositoryIndex sched server heap tr = Some (server', heap', e, tr') →
  StorageCache server' = StorageCache server
  ∨ ∃ allObjects, StorageCache server' = filterObjects allObjects.
Proof.
  destruct e as [e|]; intros H.
  - apply sync_failure in H as ->. by left.
  - unfold syncRepositoryIndex in H.
    destruct (listObjectsGetDiff server tr) as [[[objects diff] [e|]] tr1];
      [done|].
    destruct (Change diff); simpl in H.
    + apply regenerate_success in H as (_ & allObjects & published & _ & ->).
      right. by exists allObjects.
    + simplify_eq. by left.
Qed.

(** The cache holds only objects with the chart-package extension: it does
    on the server [NewServer] builds, and a synchronisation keeps it so. *)
Lemma sync_cache_filtered sched server heap tr server' heap' e tr' :
  Forall (fun c => HasExtension c ChartPackageFileExtension = true)
         (StorageCache server) →
  syncRepositoryIndex sched server heap tr = Some (server', heap', e, tr') →
  Forall (fun c => HasExtension c ChartPackageFileExtension = true)
         (StorageCache server').
Proof.
  intros Hc H. apply sync_cache in H as [->|[l ->]]; [done|].
  apply Forall_forall. by intros c [H _]%filterObjects_elem.
Qed.

Lemma NewServer_cache_filtered sched options heap tr server heap' e tr' :
  NewServer sched options heap tr = Some (ServerAt server, heap', e, tr') →
  Forall (fun c => HasExtension c ChartPackageFileExtension = true)
         (StorageCache server).
Proof.
  unfold NewServer.
  destruct (NewLogger _ _) as [logger [e0|]]; [done|].
  destruct (regenerateRepositoryIndex _ _ _ _)
    as [[[[server1 heap1] e1] tr1]|] eqn:Hr; [|done].
  intros [= <- <- <- <-]. destruct e1 as [e1|].
  - apply regenerate_failure in Hr as ->. constructor.
  - apply regenerate_success in Hr as (_ & l & published & _ & ->). simpl.
    apply Forall_forall. by intros c [H _]%filterObjects_elem.
Qed.

(** C5.  Extension filter: the diff is computed between the cache and the
    objects of the listing that have the chart-package extension.  On a
    server whose cache holds only such objects (it starts empty), an
    object without the extension is in none of [Added], [Updated] and
    [Removed], and is not in the cache after a [syncRepositoryIndex] or a
    [regenerateRepositoryIndex], whatever they return. *)
Theorem extension_filter_hides_other_objects
    server tr objects diff tr' o :
  Forall (fun c => HasExtension c ChartPackageFileExtension = true)
         (StorageCache server) →
  listObjectsGetDiff server tr = (objects, diff, None, tr') →
  HasExtension o ChartPackageFileExtension = false →
  (∃ allObjects,
      ListObjects (StorageBackend server) = Ok allObjects
      ∧ objects = filterObjects allObjects
      ∧ diff = GetObjectSliceDiff (StorageCache server)
                                  (filterObjects allObjects))
  ∧ (o ∉ objects) ∧ (o ∉ Added diff) ∧ (o ∉ Updated diff)
  ∧ (o ∉ Removed diff)
  ∧ ∀ sched heap server' heap' e tr'',
      syncRepositoryIndex sched server heap tr
      = Some (server', heap', e, tr'')
      ∨ regenerateRepositoryIndex sched server heap tr
        = Some (server', heap', e, tr'') →
      o ∉ StorageCache server'.
Proof.
  intros Hcache Hl Ho.
  apply listObjectsGetDiff_ok in Hl as (allObjects & Hall & -> & -> & _).
  assert (Hfilt : ∀ l, o ∉ filterObjects l).
  { intros l [H _]%filterObjects_elem. congruence. }
  assert (Hold : o ∉ StorageCache server).
  { intros Hin. rewrite Forall_forall in Hcache.
    apply Hcache in Hin. congruence. }
  split_and!.
  - by exists allObjects.
  - apply Hfilt.
  - rewrite elem_of_Added. intros [H _]. by apply Hfilt in H.
  - rewrite elem_of_Updated. intros [H _]. by apply Hfilt in H.
  - rewrite elem_of_Removed. intros [H _]. done.
  - intros sched heap server' heap' e tr'' [H|H].
    + apply sync_cache in H as [->|[l ->]]; [done|apply Hfilt].
    + destruct e as [e|].
      * by apply regenerate_failure in H as ->.
      * apply regenerate_success in H as (_ & l & published & _ & ->).
        apply Hfilt.
Qed.

Lemma regenerateBody_fetched sched server heap tr server' heap' e tr' p :
  regenerateBody sched server heap tr = Some (server', heap', e, tr') →
  p ∈ fetched tr' →
  p ∈ fetched tr
  ∨ ∃ allObjects,
      ListObjects (StorageBackend server) = Ok allObjects
      ∧ let diff := GetObjectSliceDiff (StorageCache server)
                                       (filterObjects allObjects) in
        p ∈ paths (Updated diff) ∨ p ∈ paths (Added diff).
Proof.
  unfold regenerateBody.
  pose proof (listObjectsGetDiff_fetched server tr) as Hf0.
  destruct (listObjectsGetDiff server tr)
    as [[[objects diff] [e0|]] tr0] eqn:Hl; simpl in Hf0.
  { intros [= _ _ _ <-]. rewrite Hf0. by left. }
  apply listObjectsGetDiff_ok in Hl as (allObjects & Hall & -> & -> & ->).
  set (diff := GetObjectSliceDiff _ _).
  set (index0 := (copyIndex _, heap)).
  pose proof (forEachObject_fetched (removeIndexObject server)
                (Removed diff) index0 (EvListObjects :: tr) (fun _ => [])
                (removeIndexObject_fetched server)) as Hf1.
  destruct (forEachObject (removeIndexObject server) _ _ _)
    as [[index1 e1] tr1]; simpl in Hf1.
  assert (H1 : ∀ q, q ∈ fetched tr1 → q ∈ fetched tr).
  { intros q Hq. destruct (Hf1 q Hq) as [H|(o & _ & H)]; [done|].
    by apply elem_of_nil in H. }
  destruct e1 as [e1|].
  { intros [= _ _ _ <-] Hp. left. eauto. }
  pose proof (forEachObject_fetched (updateIndexObject server)
                (Updated diff) index1 tr1 (fun o => [Path o])
                (updateIndexObject_fetched server)) as Hf2.
  destruct (forEachObject (updateIndexObject server) _ _ _)
    as [[index2 e2] tr2]; simpl in Hf2.
  assert (H2 : ∀ q, q ∈ fetched tr2 →
                    q ∈ fetched tr ∨ q ∈ paths (Updated diff)).
  { intros q Hq. destruct (Hf2 q Hq) as [H|(o & Ho & H)]; [left; eauto|].
    right. apply list_elem_of_singleton in H as ->.
    apply elem_of_paths. eauto. }
  assert (Hres : ∀ q, q ∈ fetched tr2 ∨ q ∈ paths (Added diff) →
            q ∈ fetched tr
            ∨ ∃ allObjects0,
                Ok allObjects = Ok allObjects0
                ∧ (q ∈ paths (Updated (GetObjectSliceDiff (StorageCache server)
                                         (filterObjects allObjects0)))
                   ∨ q ∈ paths (Added (GetObjectSliceDiff (StorageCache server)
                                         (filterObjects allObjects0))))).
  { intros q [Hq|Hq].
    - destruct (H2 q Hq) as [H|H]; [by left|]. right.
      exists allObjects. split; [done|]. by left.
    - right. exists allObjects. split; [done|]. by right. }
  rewrite Hall.
  destruct e2 as [e2|].
  { intros [= _ _ _ <-] Hp. apply Hres. by left. }
  destruct (addIndexObjectsAsync sched server index2 (Added diff) tr2)
    as [[[index3 e3] tr3]|] eqn:Ha; [|done].
  assert (H3 : ∀ q, q ∈ fetched tr3 →
                    q ∈ fetched tr2 ∨ q ∈ paths (Added diff)).
  { intros q. eapply addIndexObjectsAsync_fetched. exact Ha. }
  destruct e3 as [e3|].
  { intros [= _ _ _ <-] Hp. apply Hres. eauto. }
  destruct (Regenerate index3) as [index4 [e4|]];
    intros [= _ _ _ <-] Hp; apply Hres; eauto.
Qed.

(** C6.  Removed entries need no fetch: [removeIndexObject] resolves the
    descriptor with [load = false], so what it removes is decided by the
    descriptor alone and it calls [GetObject] for nothing; in a whole
    regeneration no path of the [Removed] set is fetched. *)
Theorem removed_objects_are_not_fetched server index object tr :
  removeIndexObject server index object tr
  = match getObjectChartVersion server object false tr with
    | (Ok chartVersion, tr1) => (RemoveEntry index chartVersion, None, tr1)
    | (Err e, tr1) =>
        (index, (checkInvalidChartPackageError object e "removed" tr1).1,
         (checkInvalidChartPackageError object e "removed" tr1).2)
    end
  ∧ getObjectChartVersion server object false tr
    = (ChartVersionFromStorageObject object, tr)
  ∧ fetched (removeIndexObject server index object tr).2 = fetched tr
  ∧ ∀ sched heap server' heap' e tr' allObjects p,
      regenerateRepositoryIndex sched server heap tr
      = Some (server', heap', e, tr') →
      ListObjects (StorageBackend server) = Ok allObjects →
      p ∈ paths (Removed (GetObjectSliceDiff (StorageCache server)
                                             (filterObjects allObjects))) →
      p ∈ fetched tr' → p ∈ fetched tr.
Proof.
  split_and!.
  - rewrite getObjectChartVersion_descriptor. apply removeIndexObject_unfold.
  - reflexivity.
  - apply removeIndexObject_fetched.
  - intros sched heap server' heap' e tr' allObjects p H Hall Hrem Hp.
    unfold regenerateRepositoryIndex in H.
    destruct (StorageCacheLock server); [done|].
    destruct (regenerateBody _ _ _ _) as [[[[server1 heap1] e1] tr1]|] eqn:Hb;
      [|done].
    simplify_eq.
    destruct (regenerateBody_fetched _ _ _ _ _ _ _ _ p Hb Hp)
      as [H|(all' & Hall' & H)]; [done|].
    simpl in Hall', H. assert (all' = allObjects) as -> by congruence.
    exfalso.
    apply elem_of_paths in Hrem as (o & Ho & <-).
    apply elem_of_Removed in Ho as [_ Ho]. apply Ho.
    destruct H as [H|H]; apply elem_of_paths in H as (o' & Ho' & <-).
    + apply elem_of_Updated in Ho' as [Ho' _]. apply elem_of_paths. eauto.
    + apply elem_of_Added in Ho' as [Ho' _]. apply elem_of_paths. eauto.
Qed.

(** C7.  Empty content is an invalid package, a failed fetch is fatal:
    with [load = true], a fetched object with empty content resolves to
    [ErrorInvalidChartPackage], which the update path and the goroutine
    of an added object turn into a warning and a nil error; an error of
    [GetObject] is returned as it is, and unless it is that very value it
    is the error of the update and the error the goroutine sends. *)
Theorem empty_content_is_invalid_fetch_failure_is_fatal
    server index object tr :
  (∀ fetchedObject,
      GetObject (StorageBackend server) (Path object) = Ok fetchedObject →
      Content fetchedObject = [] →
      getObjectChartVersion server object true tr
      = (Err ErrorInvalidChartPackage, EvGetObject (Path object) :: tr)
      ∧ updateIndexObject server index object tr
        = (index, None,
           EvWarnInvalidPackage "updated" (Path object)
             :: EvGetObject (Path object) :: tr)
      ∧ resolveAdded server object tr
        = ({| cv := None; err := None |},
           EvWarnInvalidPackage "added" (Path object)
             :: EvGetObject (Path object) :: tr))
  ∧ (∀ e,
      GetObject (StorageBackend server) (Path object) = Err e →
      getObjectChartVersion server object true tr
      = (Err e, EvGetObject (Path object) :: tr)
      ∧ (e ≠ ErrorInvalidChartPackage →
         updateIndexObject server index object tr
         = (index, Some e, EvGetObject (Path object) :: tr)
         ∧ resolveAdded server object tr
           = ({| cv := None; err := Some e |},
              EvGetObject (Path object) :: tr))).
Proof.
  split.
  - intros fetchedObject Hget Hempty.
    assert (getObjectChartVersion server object true tr
            = (Err ErrorInvalidChartPackage, EvGetObject (Path object) :: tr))
      as Hres.
    { unfold getObjectChartVersion. by rewrite Hget, Hempty. }
    unfold updateIndexObject, resolveAdded.
    rewrite Hres, !checkInvalid_invalid. done.
  - intros e Hget.
    assert (getObjectChartVersion server object true tr
            = (Err e, EvGetObject (Path object) :: tr)) as Hres.
    { unfold getObjectChartVersion. by rewrite Hget. }
    split; [done|]. intros He.
    unfold updateIndexObject, resolveAdded.
    rewrite Hres, !checkInvalid_fatal by done. done.
Qed.

End Resolver.

(** ** Invalid packages, the fan-in, the lock and the constructor *)

Section Protocol.
Context `{storagePkg : StoragePackage} `{repoPkg : RepoPackage}
        `{indexMethods : !IndexMethods} `{zapPkg : ZapPackage}.
Implicit Types (server : Server) (index : IndexView) (heap : IndexHeap).
Implicit Types (tr : trace).



(** C2, as the code has it.  While goroutines for a non-empty [objects]
    run, in every state an interleaving reaches:
    - the coordinator has received at most [len(objects)] outcomes, and
      while it is receiving its counter is their number, none of them
      carried an error, and some step is enabled;
    - when it has returned nil, every goroutine's outcome was delivered
      and none carried an error;
    - when it has returned an error, that error is the outcome of one
      goroutine, it is not [ErrorInvalidChartPackage], and every other
      outcome delivered before carried none;
    - after the return nothing more is received: the result, the index
      and the number of delivered outcomes stay, and a goroutine blocked
      in its send stays blocked;
    - after the return the context is done: a goroutine that has not
      evaluated its [select] yet exits without resolving or sending. *)
Theorem fan_in_returns_at_first_fatal_outcome server index objects tr s :
  0 < length objects →
  areachable server index objects tr s →
  delivered s ≤ length objects
  ∧ (∀ n, coord s = CReceiving n →
          n = delivered s
          ∧ (∀ i r, gos s !! i = Some (GDelivered r) → err r = None)
          ∧ ∃ l s', astep server objects l s = Some s')
  ∧ (coord s = CReturned None →
     delivered s = length objects
     ∧ ∀ i o, objects !! i = Some o →
              gos s !! i = Some (GDelivered (outcome server o))
              ∧ err (outcome server o) = None)
  ∧ (∀ e, coord s = CReturned (Some e) →
          e ≠ ErrorInvalidChartPackage
          ∧ ∃ i o, objects !! i = Some o
                   ∧ gos s !! i = Some (GDelivered (outcome server o))
                   ∧ err (outcome server o) = Some e
                   ∧ ∀ j r, j ≠ i → gos s !! j = Some (GDelivered r) →
                            err r = None)
  ∧ (∀ e sched s',
        coord s = CReturned e →
        aexec server objects sched s = Some s' →
        coord s' = CReturned e ∧ aindex s' = aindex s
        ∧ delivered s' = delivered s
        ∧ ∀ i r, gos s !! i = Some (GSending r) →
                 gos s' !! i = Some (GSending r))
  ∧ (∀ e i,
        coord s = CReturned e → gos s !! i = Some GSpawned →
        ctxDone s = true
        ∧ ∃ s', astep server objects (LSelect i) s = Some s'
                ∧ gos s' !! i = Some GCancelled).
Proof.
  intros Hlen Hreach.
  pose proof (ainv_reachable _ _ _ _ _ Hlen Hreach) as Hinv.
  pose proof Hinv as (Hl & Hout & Hc). unfold coordInv in Hc.
  split_and!.
  - unfold delivered. rewrite <- Hl. apply tally_isDelivered_le.
  - intros n Hco. rewrite Hco in Hc.
    destruct Hc as (Hn & _ & Hd & _ & _). split_and!; try done.
    by eapply astep_progress.
  - intros Hco. rewrite Hco in Hc. destruct Hc as (_ & Hall).
    assert (Hfull : ∀ i o, objects !! i = Some o →
              gos s !! i = Some (GDelivered (outcome server o))
              ∧ err (outcome server o) = None).
    { intros i o Ho. destruct (Hall i) as (r & Hr & He).
      { by eapply lookup_lt_Some. }
      destruct (Hout i r) as (o' & Ho' & ->); [by right|].
      by simplify_eq. }
    split; [|done].
    unfold delivered. rewrite <- Hl.
    assert (Hgs : ∀ i g, gos s !! i = Some g → isDelivered g = 1).
    { intros i g Hg. destruct (Hall i) as (r & Hr & _).
      { rewrite <- Hl. by eapply lookup_lt_Some. }
      rewrite Hg in Hr. by simplify_eq. }
    clear -Hgs. induction (gos s) as [|g gs IH]; simpl; [done|].
    rewrite (Hgs 0 g) by done. f_equal. apply IH.
    intros i g' Hg'. by apply (Hgs (S i)).
  - intros e Hco. rewrite Hco in Hc.
    destruct Hc as (_ & i & r & Hi & He & Hoth).
    destruct (Hout i r) as (o & Ho & ->); [by right|].
    split.
    + intros ->. by eapply outcome_error.
    + exists i, o. done.
  - intros e sched s'. apply aexec_after_return.
  - intros e i Hco Hi. rewrite Hco in Hc.
    assert (Hdone : ctxDone s = true) by (destruct e; apply Hc).
    split; [done|]. simpl. rewrite Hi, Hdone. eexists. split; [done|].
    simpl. apply list_lookup_insert_eq. by eapply lookup_lt_Some.
Qed.

(** What holds of the callers and the lock in every reachable process. *)
Lemma pstep_regenerating l p p' :
  regenerating p = (if StorageCacheLock (pserver p) then 1 else 0) →
  pstep l p = Some p' →
  regenerating p' = (if StorageCacheLock (pserver p') then 1 else 0).
Proof.
  unfold regenerating. intros Hinv. destruct l as [t|t|t sched]; simpl.
  - destruct (callers p !! t) as [[]|] eqn:Ht; try done.
    destruct (listObjectsGetDiff _ _) as [[[objects diff] [e|]] tr1];
      intros [= <-]; simpl.
    + pose proof (tally_insert isRegenerating _ _ _ (Finished (Some e)) Ht).
      simpl in *. lia.
    + pose proof (tally_insert isRegenerating _ _ _
                    (if negb (Change diff) then Finished None else AtLock) Ht).
      destruct (Change diff); simpl in *; lia.
  - destruct (callers p !! t) as [[]|] eqn:Ht; try done.
    destruct (StorageCacheLock (pserver p)) eqn:Hlock; [done|].
    intros [= <-]; simpl.
    pose proof (tally_insert isRegenerating _ _ _ Regenerating Ht).
    simpl in *. lia.
  - destruct (callers p !! t) as [[]|] eqn:Ht; try done.
    destruct (regenerateBody _ _ _ _) as [[[[server1 heap1] e] tr1]|]; [|done].
    intros [= <-]; simpl.
    pose proof (tally_insert isRegenerating _ _ _ (Finished e) Ht).
    destruct (StorageCacheLock (pserver p)); simpl in *; lia.
Qed.

Lemma pexec_regenerating ls p p' :
  regenerating p = (if StorageCacheLock (pserver p) then 1 else 0) →
  pexec ls p = Some p' →
  regenerating p' = (if StorageCacheLock (pserver p') then 1 else 0).
Proof.
  revert p. induction ls as [|l ls IH]; simpl; intros p Hinv.
  - by intros [= <-].
  - destruct (pstep l p) as [p1|] eqn:Hs; [|done].
    eauto using pstep_regenerating.
Qed.

(** C9, as the code has it.  From a process with a free lock and nobody
    regenerating, in every state the callers reach: at most one caller is
    inside a regeneration, and one is exactly when the lock is held; a
    caller at [Lock()] cannot proceed while the lock is held and takes the
    lock when it is free; when a caller leaves its regeneration, with or
    without an error, the lock is free and nobody is regenerating; the
    sequential call releases the lock too.  A caller of
    [syncRepositoryIndex] that has not listed yet is never held back: its
    listing and diff need no lock and leave the server, the heap and the
    other callers as they are, after which it has returned the error of
    the listing when the listing failed, has returned nil when the diff
    shows no change, and stands at [Lock()] otherwise. *)
Theorem regenerations_never_overlap p0 ls p :
  StorageCacheLock (pserver p0) = false →
  regenerating p0 = 0 →
  pexec ls p0 = Some p →
  regenerating p ≤ 1
  ∧ (StorageCacheLock (pserver p) = true ↔ regenerating p = 1)
  ∧ (∀ t, StorageCacheLock (pserver p) = true → pstep (PLock t) p = None)
  ∧ (∀ t, callers p !! t = Some AtLock →
          StorageCacheLock (pserver p) = false →
          ∃ p', pstep (PLock t) p = Some p'
                ∧ callers p' !! t = Some Regenerating
                ∧ StorageCacheLock (pserver p') = true
                ∧ regenerating p' = 1)
  ∧ (∀ t sched p', pstep (PRegenerate t sched) p = Some p' →
        StorageCacheLock (pserver p') = false ∧ regenerating p' = 0)
  ∧ (∀ sched server heap tr server' heap' e tr',
        regenerateRepositoryIndex sched server heap tr
        = Some (server', heap', e, tr') →
        StorageCacheLock server = false ∧ StorageCacheLock server' = false)
  ∧ (∀ t, callers p !! t = Some AtSync →
          ∃ p', pstep (PList t) p = Some p'
                ∧ pserver p' = pserver p
                ∧ pheap p' = pheap p
                ∧ ptrace p' = EvListObjects :: ptrace p
                ∧ (∀ j, j ≠ t → callers p' !! j = callers p !! j)
                ∧ callers p' !! t
                  = Some match ListObjects (StorageBackend (pserver p)) with
                         | Err e => Finished (Some e)
                         | Ok allObjects =>
                             if Change (GetObjectSliceDiff
                                          (StorageCache (pserver p))
                                          (filterObjects allObjects))
                             then AtLock
                             else Finished None
                         end).
Proof.
  intros Hlock H0 Hx.
  assert (Hinv : regenerating p
                 = (if StorageCacheLock (pserver p) then 1 else 0)).
  { eapply pexec_regenerating; [|exact Hx]. by rewrite Hlock. }
  split_and!.
  - destruct (StorageCacheLock (pserver p)); lia.
  - destruct (StorageCacheLock (pserver p)); split; (done || lia).
  - intros t Hheld. simpl. rewrite Hheld. by repeat case_match.
  - intros t Ht Hfree.
    assert (Hs : pstep (PLock t) p
                 = Some {| pserver := setLock (pserver p) true;
                           pheap := pheap p;
                           callers := <[t := Regenerating]> (callers p);
                           ptrace := ptrace p |})
      by (simpl; by rewrite Ht, Hfree).
    eexists. split; [exact Hs|].
    pose proof (pstep_regenerating _ _ _ Hinv Hs) as Hinv'.
    split_and!; [|done|exact Hinv']. simpl.
    apply list_lookup_insert_eq. by eapply lookup_lt_Some.
  - intros t sched p' Hs.
    pose proof (pstep_regenerating _ _ _ Hinv Hs) as Hinv'.
    simpl in Hs. destruct (callers p !! t) as [[]|]; try done.
    destruct (regenerateBody _ _ _ _) as [[[[server1 heap1] e] tr1]|]; [|done].
    simplify_eq. simpl in *. done.
  - intros sched server heap tr server' heap' e tr' H. split.
    + unfold regenerateRepositoryIndex in H.
      by destruct (StorageCacheLock server).
    + by eapply regenerate_unlocks.
  - intros t Ht.
    assert (Hlt : t < length (callers p)) by by eapply lookup_lt_Some.
    set (c := match ListObjects (StorageBackend (pserver p)) with
              | Err e => Finished (Some e)
              | Ok allObjects =>
                  if Change (GetObjectSliceDiff (StorageCache (pserver p))
                                                (filterObjects allObjects))
                  then AtLock else Finished None
              end).
    exists {| pserver := pserver p; pheap := pheap p;
              callers := <[t := c]> (callers p);
              ptrace := EvListObjects :: ptrace p |}.
    split_and!; try done.
    + subst c. cbn [pstep]. rewrite Ht. unfold listObjectsGetDiff.
      destruct (ListObjects (StorageBackend (pserver p))) as [allObjects|e];
        [|done].
      cbv zeta. by destruct (Change (GetObjectSliceDiff _ _)).
    + intros j Hj. cbn [callers]. by apply list_lookup_insert_ne.
    + cbn [callers]. by apply list_lookup_insert_eq.
Qed.

(** C10.  [NewServer] swallows the logger's error: when building the
    logger fails it returns the zero server and a nil error, without
    touching the store or the heap; an error it returns is the error of
    the initial [regenerateRepositoryIndex] on the server it built. *)
Theorem NewServer_error_is_regeneration_error sched options heap tr :
  (∀ e, configBuild (OptLogJSON options) (OptDebug options) = Some e →
        NewLogger (OptLogJSON options) (OptDebug options)
        = ({| LogJSON := false; LogDebug := false |}, Some e)
        ∧ NewServer sched options heap tr = Some (ZeroServer, heap, None, tr))
  ∧ (∀ sp heap' e tr',
        NewServer sched options heap tr = Some (sp, heap', Some e, tr') →
        configBuild (OptLogJSON options) (OptDebug options) = None
        ∧ ∃ server',
            sp = ServerAt server'
            ∧ regenerateRepositoryIndex sched
                (buildServer options {| LogJSON := OptLogJSON options;
                                        LogDebug := OptDebug options |} heap)
                (NewIndex (OptChartURL options) heap).2 tr
              = Some (server', heap', Some e, tr')).
Proof.
  unfold NewServer, NewLogger. split.
  - intros e ->. done.
  - intros sp heap' e tr'.
    destruct (configBuild _ _) as [e0|]; [done|].
    destruct (regenerateRepositoryIndex _ _ _ _)
      as [[[[server1 heap1] e1] tr1]|]; [|done].
    intros [= <- <- -> <-]. eauto.
Qed.

End Protocol.

(** * Further properties of the engine *)

(** ** Picking objects by the state of their goroutine *)

Lemma pick_insert_same f objects gs i g g' :
  gs !! i = Some g → f g' = f g →
  pick f objects (<[i:=g']> gs) = pick f objects gs.
Proof.
  revert gs i. induction objects as [|o objects IH]; intros [|g0 gs] [|i];
    simpl; try done.
  - intros [= ->] ->. done.
  - intros Hi Hf. by rewrite (IH _ _ Hi Hf).
Qed.

Lemma pick_insert_new f objects gs i g g' o :
  gs !! i = Some g → objects !! i = Some o → f g = false → f g' = true →
  pick f objects (<[i:=g']> gs) ≡ₚ o :: pick f objects gs.
Proof.
  revert gs i. induction objects as [|o0 objects IH]; intros [|g0 gs] [|i];
    simpl; try done.
  - intros [= ->] [= ->] -> ->. done.
  - intros Hi Ho Hf Hf'. destruct (f g0).
    + rewrite (IH _ _ Hi Ho Hf Hf'). apply Permutation_swap.
    + by apply IH.
Qed.

Lemma pick_sublist f objects gs : pick f objects gs `sublist_of` objects.
Proof.
  revert gs. induction objects as [|o objects IH]; intros [|g gs]; simpl;
    try apply sublist_nil_l.
  destruct (f g); [by apply sublist_skip|by apply sublist_cons].
Qed.

Lemma pick_all f objects gs :
  length gs = length objects →
  (∀ i g, gs !! i = Some g → f g = true) →
  pick f objects gs = objects.
Proof.
  revert gs. induction objects as [|o objects IH]; intros [|g gs]; simpl;
    try done.
  intros [= Hlen] Hall. rewrite (Hall 0 g eq_refl). f_equal.
  apply IH; [done|]. intros i g' Hi. by apply (Hall (S i)).
Qed.

Lemma pick_none f objects gs :
  (∀ i g, gs !! i = Some g → f g = false) → pick f objects gs = [].
Proof.
  revert gs. induction objects as [|o objects IH]; intros [|g gs]; simpl;
    try done.
  intros Hall. rewrite (Hall 0 g eq_refl).
  apply IH. intros i g' Hi. by apply (Hall (S i)).
Qed.

Lemma elem_of_pick f objects gs o :
  o ∈ pick f objects gs →
  ∃ i g, objects !! i = Some o ∧ gs !! i = Some g ∧ f g = true.
Proof.
  revert gs. induction objects as [|o0 objects IH]; intros [|g gs]; simpl;
    try (by intros ?%elem_of_nil).
  destruct (f g) eqn:Hf.
  - intros [->|H]%elem_of_cons.
    + by exists 0, g.
    + destruct (IH _ H) as (i & g' & ? & ? & ?). by exists (S i), g'.
  - intros H. destruct (IH _ H) as (i & g' & ? & ? & ?). by exists (S i), g'.
Qed.

(** ** What the goroutines have fetched and added *)

Section History.
Context `{storagePkg : StoragePackage} `{repoPkg : RepoPackage}
        `{indexMethods : !IndexMethods} `{zapPkg : ZapPackage}.
Implicit Types (server : Server) (index : IndexView) (tr : trace) (s : async).

Lemma ahistory_init server index objects tr :
  ahistory server index objects tr (asyncInit index objects tr).
Proof.
  assert (Hnone : ∀ f, f GSpawned = false →
            pick f objects (replicate (length objects) GSpawned) = []).
  { intros f Hf. apply pick_none. by intros i g [-> _]%lookup_replicate. }
  unfold ahistory, asyncInit; simpl. rewrite !Hnone by done. split; [done|].
  by exists [].
Qed.

Lemma addReceived_error server o index :
  is_Some (err (outcome server o)) → addReceived index (outcome server o) = index.
Proof.
  intros [e He]. unfold addReceived.
  destruct (outcome_shape server o) as [->|Hn]; [done|]. congruence.
Qed.

Lemma ahistory_step server index0 objects tr0 l s s' :
  ainv server objects s → ahistory server index0 objects tr0 s →
  astep server objects l s = Some s' →
  ahistory server index0 objects tr0 s'.
Proof.
  intros (Hlen & Hout & _) (Hf & received & Hrec & Hidx) Hstep.
  destruct l as [i|i|i]; simpl in Hstep.
  - destruct (gos s !! i) as [[]|] eqn:Hi; simplify_eq.
    unfold ahistory; simpl.
    rewrite !(pick_insert_same _ _ _ _ _ _ Hi)
      by (by destruct (ctxDone s)).
    split; [done|]. by exists received.
  - destruct (gos s !! i) as [[]|] eqn:Hi; simplify_eq.
    destruct (objects !! i) as [o|] eqn:Ho; simplify_eq.
    pose proof (resolveAdded_fetched server o (atrace s)) as Hfo.
    destruct (resolveAdded server o (atrace s)) as [r tr1]; simpl in Hfo.
    simplify_eq. unfold ahistory; simpl.
    rewrite (pick_insert_same wasDelivered _ _ _ _ _ Hi) by done.
    split; [|by exists received].
    unfold paths in *.
    rewrite Hfo, (pick_insert_new hasResolved _ _ _ _ _ _ Hi Ho) by done.
    rewrite fmap_cons. simpl. by rewrite Hf.
  - destruct (gos s !! i) as [[| |r| |]|] eqn:Hi; simplify_eq.
    destruct (coord s) as [n|] eqn:Hco; simplify_eq.
    destruct (Hout i r) as (o & Ho & ->); [by left|].
    unfold ahistory. rewrite receive_gos, receive_atrace. simpl.
    rewrite (pick_insert_same hasResolved _ _ _ _ _ Hi) by done.
    split; [done|]. exists (received ++ [o]). split.
    + rewrite (pick_insert_new wasDelivered _ _ _ _ _ _ Hi Ho) by done.
      rewrite <- Hrec. by rewrite Permutation_app_comm.
    + rewrite fmap_app, foldl_app. simpl. rewrite <- Hidx.
      unfold receive. simpl.
      destruct (err (outcome server o)) as [e|] eqn:He; simpl.
      * rewrite addReceived_error; [done|]. by rewrite He.
      * unfold addReceived. by destruct (S n <? length objects).
Qed.

Lemma ahistory_aexec server index0 objects tr0 sched s s' :
  ainv server objects s → ahistory server index0 objects tr0 s →
  aexec server objects sched s = Some s' →
  ahistory server index0 objects tr0 s'.
Proof.
  revert s. induction sched as [|l sched IH]; simpl; intros s Hinv Hh.
  - by intros [= <-].
  - destruct (astep server objects l s) as [s1|] eqn:Hs; [|done].
    apply IH; eauto using ainv_step, ahistory_step.
Qed.

Lemma ahistory_reachable server index objects tr s :
  0 < length objects → areachable server index objects tr s →
  ahistory server index objects tr s.
Proof.
  intros Hlen [sched Hx]. eapply ahistory_aexec; [| |exact Hx].
  - by apply ainv_init.
  - apply ahistory_init.
Qed.

Lemma foldl_addReceived server index (l : list Object) :
  foldl addReceived index (outcome server <$> l)
  = foldl AddEntry index (omap (fun o => cv (outcome server o)) l).
Proof.
  revert index. induction l as [|o l IH]; intros index; simpl; [done|].
  unfold addReceived at 2. destruct (cv (outcome server o)); simpl; apply IH.
Qed.

(** Once the context is done, a goroutine that has not evaluated its
    [select] can only leave through the [ctx.Done()] branch. *)
Lemma astep_cancelled server objects l s s' i :
  ctxDone s = true →
  gos s !! i = Some GSpawned ∨ gos s !! i = Some GCancelled →
  astep server objects l s = Some s' →
  ctxDone s' = true
  ∧ (gos s' !! i = Some GSpawned ∨ gos s' !! i = Some GCancelled).
Proof.
  intros Hdone Hi. destruct l as [j|j|j]; simpl.
  - destruct (gos s !! j) as [[]|] eqn:Hj; try done. intros [= <-]. simpl.
    split; [done|]. rewrite Hdone.
    destruct (decide (j = i)) as [->|Hne].
    + right. apply list_lookup_insert_eq. by eapply lookup_lt_Some.
    + by rewrite list_lookup_insert_ne.
  - destruct (gos s !! j) as [[]|] eqn:Hj; try done.
    destruct (objects !! j) as [o|]; [|done].
    destruct (resolveAdded server o (atrace s)) as [r tr1].
    intros [= <-]. simpl. rewrite Hdone. split; [done|].
    rewrite list_lookup_insert_ne; [done|]. intros ->.
    destruct Hi; congruence.
  - destruct (gos s !! j) as [[| |r| |]|] eqn:Hj; try done.
    destruct (coord s) as [n|]; [|done]. intros [= <-].
    rewrite receive_gos. simpl. split.
    + unfold receive. simpl. rewrite Hdone. by repeat case_match.
    + rewrite list_lookup_insert_ne; [done|]. intros ->.
      destruct Hi; congruence.
Qed.

Lemma aexec_cancelled server objects sched s s' i :
  ctxDone s = true →
  gos s !! i = Some GSpawned ∨ gos s !! i = Some GCancelled →
  aexec server objects sched s = Some s' →
  ctxDone s' = true
  ∧ (gos s' !! i = Some GSpawned ∨ gos s' !! i = Some GCancelled).
Proof.
  revert s. induction sched as [|l sched IH]; simpl; intros s Hdone Hi.
  - by intros [= <-].
  - destruct (astep server objects l s) as [s1|] eqn:Hs; [|done].
    destruct (astep_cancelled _ _ _ _ _ _ Hdone Hi Hs) as [Hdone1 Hi1].
    by apply IH.
Qed.

(** X1.  Every added object is downloaded at most once, and exactly once
    when the load succeeds: whatever the interleaving, the paths
    [addIndexObjectsAsync] fetched are, up to order, those of a
    subsequence of its objects, and of all of them when it returns nil. *)
Theorem added_objects_are_fetched_once
    sched server index objects tr index' e tr' :
  addIndexObjectsAsync sched server index objects tr = Some (index', e, tr') →
  ∃ resolved,
    resolved `sublist_of` objects
    ∧ fetched tr' ≡ₚ paths resolved ++ fetched tr
    ∧ (e = None → resolved = objects).
Proof.
  destruct objects as [|o0 objects].
  { intros [= <- <- <-]. by exists []. }
  intros H.
  apply addIndexObjectsAsync_inv in H
    as (s & Hreach & Hinv & Hco & _ & <-); [|simpl; lia].
  apply ahistory_reachable in Hreach as [Hf _]; [|simpl; lia].
  exists (pick hasResolved (o0 :: objects) (gos s)).
  split_and!; [apply pick_sublist|done|].
  intros ->. destruct Hinv as (Hlen & _ & Hc). unfold coordInv in Hc.
  rewrite Hco in Hc. destruct Hc as [_ Hall].
  apply pick_all; [done|]. intros i g Hi.
  destruct (Hall i) as (r & Hr & _).
  { rewrite <- Hlen. by eapply lookup_lt_Some. }
  rewrite Hi in Hr. by simplify_eq.
Qed.

(** X2.  When the load succeeds, the index is the one it was given with
    [AddEntry] applied once for each added object that resolved to a
    chart, in the order the values were received, which is some order of
    the objects. *)
Theorem added_charts_are_entered_once
    sched server index objects tr index' tr' :
  addIndexObjectsAsync sched server index objects tr
  = Some (index', None, tr') →
  ∃ received,
    received ≡ₚ objects
    ∧ index' = foldl AddEntry index
                     (omap (fun o => cv (outcome server o)) received).
Proof.
  destruct objects as [|o0 objects].
  { intros [= <- <-]. by exists []. }
  intros H.
  apply addIndexObjectsAsync_inv in H
    as (s & Hreach & Hinv & Hco & <- & _); [|simpl; lia].
  apply ahistory_reachable in Hreach
    as [_ (received & Hrec & Hidx)]; [|simpl; lia].
  exists received. rewrite <- foldl_addReceived. split; [|done].
  rewrite Hrec. destruct Hinv as (Hlen & _ & Hc). unfold coordInv in Hc.
  rewrite Hco in Hc. destruct Hc as [_ Hall].
  rewrite pick_all; [done..|]. intros i g Hi.
  destruct (Hall i) as (r & Hr & _).
  { rewrite <- Hlen. by eapply lookup_lt_Some. }
  rewrite Hi in Hr. by simplify_eq.
Qed.

(** X3.  Whether the load fails does not depend on the interleaving: it
    returns nil exactly when no added object resolves to a fatal error,
    and an error it returns is the fatal error of one of the objects. *)
Theorem load_fails_iff_some_object_is_fatal
    sched server index objects tr index' e tr' :
  addIndexObjectsAsync sched server index objects tr = Some (index', e, tr') →
  (e = None ↔ ∀ o, o ∈ objects → err (outcome server o) = None)
  ∧ (∀ e0, e = Some e0 →
           ∃ o, o ∈ objects ∧ err (outcome server o) = Some e0).
Proof.
  destruct objects as [|o0 objects].
  { intros [= <- <- <-]. split; [|done].
    split; [|done]. by intros _ o ?%elem_of_nil. }
  intros H.
  apply addIndexObjectsAsync_inv in H
    as (s & _ & (Hlen & Hout & Hc) & Hco & _ & _); [|simpl; lia].
  unfold coordInv in Hc. rewrite Hco in Hc.
  assert (Herr : ∀ e0, e = Some e0 →
            ∃ o, o ∈ o0 :: objects ∧ err (outcome server o) = Some e0).
  { intros e0 ->. destruct Hc as (_ & i & r & Hi & He & _).
    destruct (Hout i r) as (o & Ho & ->); [by right|].
    exists o. split; [by eapply list_elem_of_lookup_2|done]. }
  split; [|done]. split.
  - intros -> o [i Ho]%list_elem_of_lookup. destruct Hc as [_ Hall].
    destruct (Hall i) as (r & Hr & He); [by eapply lookup_lt_Some|].
    destruct (Hout i r) as (o' & Ho' & ->); [by right|]. by simplify_eq.
  - intros Hall. destruct e as [e0|]; [|done].
    destruct (Herr e0 eq_refl) as (o & Ho & He).
    rewrite (Hall o Ho) in He. done.
Qed.

(** X4.  The short-circuit works for downloads that have not started:
    once the context is cancelled, a goroutine that has not yet evaluated
    its [select] never fetches; with unique paths, the path of its object
    is not among those the goroutines fetch, however the run goes on. *)
Theorem cancelled_goroutine_never_fetches
    server index objects tr s i o sched s' :
  areachable server index objects tr s →
  NoDup (paths objects) →
  ctxDone s = true →
  gos s !! i = Some GSpawned →
  objects !! i = Some o →
  aexec server objects sched s = Some s' →
  (gos s' !! i = Some GSpawned ∨ gos s' !! i = Some GCancelled)
  ∧ ∃ resolved,
      fetched (atrace s') ≡ₚ paths resolved ++ fetched tr
      ∧ resolved `sublist_of` objects
      ∧ Path o ∉ paths resolved.
Proof.
  intros Hreach Hnd Hdone Hi Ho Hx.
  assert (Hlen : 0 < length objects)
    by (pose proof (lookup_lt_Some _ _ _ Ho); lia).
  destruct (aexec_cancelled _ _ _ _ _ i Hdone (or_introl Hi) Hx)
    as [_ Hi'].
  split; [done|].
  assert (Hreach' : areachable server index objects tr s').
  { destruct Hreach as [sched0 H0]. exists (sched0 ++ sched).
    clear -H0 Hx. revert H0. generalize (asyncInit index objects tr).
    induction sched0 as [|l sched0 IH]; simpl; intros a.
    - by intros [= ->].
    - destruct (astep server objects l a); [apply IH|done]. }
  apply ahistory_reachable in Hreach' as [Hf _]; [|done].
  exists (pick hasResolved objects (gos s')).
  split_and!; [done|apply pick_sublist|].
  intros (o' & Ho' & Hp)%elem_of_paths.
  apply elem_of_pick in Ho' as (j & g & Hj & Hg & Hres).
  assert (j = i) as ->.
  { eapply NoDup_lookup; [exact Hnd| |]; unfold paths;
      rewrite list_lookup_fmap.
    - rewrite Hj. simpl. by rewrite Hp.
    - by rewrite Ho. }
  destruct Hi' as [Hi'|Hi']; rewrite Hi' in Hg; by simplify_eq.
Qed.

End History.

(** ** The phases of a regeneration *)

Section Phases.
Context `{storagePkg : StoragePackage} `{repoPkg : RepoPackage}
        `{indexMethods : !IndexMethods} `{zapPkg : ZapPackage}.
Implicit Types (server : Server) (index : IndexView) (tr : trace).

Lemma updateIndexObject_error_source server index object tr index' e tr' :
  updateIndexObject server index object tr = (index', Some e, tr') →
  (getObjectChartVersion server object true []).1 = Err e
  ∧ e ≠ ErrorInvalidChartPackage.
Proof.
  unfold updateIndexObject.
  pose proof (getObjectChartVersion_value server object true tr []) as Hv.
  destruct (getObjectChartVersion server object true tr) as [[c|e0] tr1];
    [done|]. cbn [fst] in Hv.
  destruct (checkInvalidChartPackageError _ _ _ _) as [e1 tr2] eqn:Hc.
  intros [= <- -> <-]. apply checkInvalid_result in Hc as (-> & ? & _).
  split; [by rewrite <- Hv|done].
Qed.

Lemma updateIndexObject_fatal server index object tr e :
  GetObject (StorageBackend server) (Path object) = Err e →
  e ≠ ErrorInvalidChartPackage →
  updateIndexObject server index object tr
  = (index, Some e, EvGetObject (Path object) :: tr).
Proof.
  intros Hget He. unfold updateIndexObject, getObjectChartVersion.
  rewrite Hget. by rewrite checkInvalid_fatal.
Qed.

(** A loop over objects one of which fails whatever the index and the
    trace returns an error. *)
Lemma forEachObject_fails body objects object index tr :
  object ∈ objects →
  (∀ index tr, is_Some (body index object tr).1.2) →
  is_Some (forEachObject body objects index tr).1.2.
Proof.
  intros Hin Hfail. revert index tr.
  induction objects as [|o rest IH]; intros index tr;
    [by apply elem_of_nil in Hin|].
  simpl. apply elem_of_cons in Hin as [<-|Hin].
  - pose proof (Hfail index tr) as Hf.
    destruct (body index object tr) as [[index1 [e|]] tr1]; simpl in *;
      [eauto|by destruct Hf].
  - destruct (body index o tr) as [[index1 [e|]] tr1]; simpl; [eauto|].
    by apply IH.
Qed.

(** X5.  The loop over the updated objects fetches them one by one in the
    order of the list and stops at the first fatal error: what it fetched
    is a prefix of the list, the whole list when it returns nil, and when
    it returns an error that error is the fatal resolution error of the
    last object it fetched. *)
Theorem update_loop_fetches_in_order_until_failure
    server objects index tr index' e tr' :
  forEachObject (updateIndexObject server) objects index tr
  = (index', e, tr') →
  ∃ k,
    k ≤ length objects
    ∧ fetched tr' = reverse (paths (take k objects)) ++ fetched tr
    ∧ (e = None → k = length objects)
    ∧ (∀ e0, e = Some e0 →
         ∃ o, 0 < k ∧ objects !! (pred k) = Some o
              ∧ (getObjectChartVersion server o true []).1 = Err e0
              ∧ e0 ≠ ErrorInvalidChartPackage).
Proof.
  revert index tr.
  induction objects as [|o rest IH]; simpl; intros index tr.
  - intros [= <- <- <-]. exists 0. split_and!; (done || lia).
  - pose proof (updateIndexObject_fetched server index o tr) as Hf.
    destruct (updateIndexObject server index o tr)
      as [[index1 [e1|]] tr1] eqn:Hu; simpl in Hf.
    + intros [= <- <- <-]. exists 1. split_and!; try (done || lia).
      intros e0 [= ->]. exists o. split; [lia|]. split; [done|].
      by eapply updateIndexObject_error_source.
    + intros H. destruct (IH _ _ H) as (k & Hk & Hfk & Hnone & Hsome).
      exists (S k). split_and!.
      * lia.
      * change (take (S k) (o :: rest)) with (o :: take k rest).
        unfold paths in *. rewrite fmap_cons, reverse_cons, Hfk, Hf.
        by rewrite <- app_assoc.
      * intros He. by rewrite (Hnone He).
      * intros e0 He. destruct (Hsome e0 He) as (o' & Hpos & Ho' & Hres).
        exists o'. split; [lia|]. split; [|done].
        destruct k; [lia|]. done.
Qed.

(** X6.  A fatal fetch error on an updated object fails the regeneration
    before any added object is downloaded: under every interleaving
    [regenerateRepositoryIndex] returns an error, has assigned no field of
    the server, and no path of the [Added] set has been fetched.  The
    heap is as the removals and the updates before the failure left it. *)
Theorem fatal_update_fails_before_added_are_fetched
    sched server heap tr allObjects o e :
  StorageCacheLock server = false →
  ListObjects (StorageBackend server) = Ok allObjects →
  o ∈ Updated (GetObjectSliceDiff (StorageCache server)
                                  (filterObjects allObjects)) →
  GetObject (StorageBackend server) (Path o) = Err e →
  e ≠ ErrorInvalidChartPackage →
  ∃ e' heap' tr',
    regenerateRepositoryIndex sched server heap tr
    = Some (server, heap', Some e', tr')
    ∧ ∀ p, p ∈ paths (Added (GetObjectSliceDiff (StorageCache server)
                                (filterObjects allObjects))) →
           p ∈ fetched tr' → p ∈ fetched tr.
Proof.
  intros Hlock Hall Ho Hget He.
  unfold regenerateRepositoryIndex, regenerateBody, listObjectsGetDiff.
  rewrite Hlock. simpl. rewrite Hall.
  set (diff := GetObjectSliceDiff _ _) in *.
  set (index0 := (copyIndex _, heap)).
  pose proof (forEachObject_fetched (removeIndexObject (setLock server true))
                (Removed diff) index0 (EvListObjects :: tr) (fun _ => [])
                (removeIndexObject_fetched (setLock server true))) as Hf1.
  destruct (forEachObject (removeIndexObject (setLock server true)) _ _ _)
    as [[index1 e1] tr1]; simpl in Hf1.
  assert (H1 : ∀ q, q ∈ fetched tr1 → q ∈ fetched tr).
  { intros q Hq. destruct (Hf1 q Hq) as [H|(o' & _ & H)]; [done|].
    by apply elem_of_nil in H. }
  destruct e1 as [e1|].
  { exists e1, index1.2, tr1. rewrite setLock_release by done.
    split; [done|]. eauto. }
  pose proof (forEachObject_fetched (updateIndexObject (setLock server true))
                (Updated diff) index1 tr1 (fun o => [Path o])
                (updateIndexObject_fetched (setLock server true))) as Hf2.
  pose proof (forEachObject_fails (updateIndexObject (setLock server true))
                (Updated diff) o index1 tr1 Ho) as Hfail.
  destruct (forEachObject (updateIndexObject (setLock server true)) _ _ _)
    as [[index2 e2] tr2]; simpl in Hf2, Hfail.
  destruct Hfail as [e2' ->].
  { intros index tr0. rewrite (updateIndexObject_fatal _ _ _ _ e); eauto. }
  exists e2', index2.2, tr2. rewrite setLock_release by done. split; [done|].
  intros p Hp Hq. destruct (Hf2 p Hq) as [H|(o' & Ho' & H)]; [eauto|].
  apply list_elem_of_singleton in H as ->. exfalso.
  apply elem_of_paths in Hp as (a & Ha & Hpa).
  apply elem_of_Added in Ha as [_ Ha]. apply Ha. rewrite Hpa.
  apply elem_of_Updated in Ho' as (_ & o1 & Ho1 & Hp1 & _).
  apply elem_of_paths. eauto.
Qed.

(** X7.  A failed listing is returned as it is, after that one call to the
    store and nothing else, by [syncRepositoryIndex], by
    [regenerateRepositoryIndex] and, with the server it built, by
    [NewServer], whatever the interleaving; the server and the heap are
    as they were, for [NewServer] as the allocation of the new index left
    them. *)
Theorem listing_failure_is_returned_verbatim
    sched server heap options tr e :
  (ListObjects (StorageBackend server) = Err e →
   syncRepositoryIndex sched server heap tr
   = Some (server, heap, Some e, EvListObjects :: tr)
   ∧ (StorageCacheLock server = false →
      regenerateRepositoryIndex sched server heap tr
      = Some (server, heap, Some e, EvListObjects :: tr)))
  ∧ (ListObjects (OptStorageBackend options) = Err e →
     configBuild (OptLogJSON options) (OptDebug options) = None →
     NewServer sched options heap tr
     = Some (ServerAt (buildServer options
                         {| LogJSON := OptLogJSON options;
                            LogDebug := OptDebug options |} heap),
             (NewIndex (OptChartURL options) heap).2,
             Some e, EvListObjects :: tr)).
Proof.
  assert (Hregen : ∀ server0 heap0,
            ListObjects (StorageBackend server0) = Err e →
            StorageCacheLock server0 = false →
            regenerateRepositoryIndex sched server0 heap0 tr
            = Some (server0, heap0, Some e, EvListObjects :: tr)).
  { intros server0 heap0 Hl Hlock.
    unfold regenerateRepositoryIndex, regenerateBody, listObjectsGetDiff.
    rewrite Hlock. simpl. rewrite Hl. by rewrite setLock_release. }
  split.
  - intros Hl. split; [|by apply Hregen].
    unfold syncRepositoryIndex, listObjectsGetDiff. by rewrite Hl.
  - intros Hl Hb. unfold NewServer, NewLogger. rewrite Hb.
    by rewrite Hregen.
Qed.

End Phases.

(** ** Callers that finish *)

Lemma tally_pos {A} (f : A → nat) (l : list A) :
  0 < tally f l → ∃ i x, l !! i = Some x ∧ 0 < f x.
Proof.
  induction l as [|x l IH]; simpl; [lia|]. intros H.
  destruct (f x) eqn:Hx.
  - destruct IH as (i & y & Hi & Hy); [lia|]. by exists (S i), y.
  - exists 0, x. split; [done|lia].
Qed.

Lemma tally_lookup_le {A} (f : A → nat) (l : list A) i x :
  l !! i = Some x → f x ≤ tally f l.
Proof.
  revert i. induction l as [|y l IH]; intros [|i]; simpl; try done.
  - intros [= ->]. lia.
  - intros Hi. specialize (IH _ Hi). lia.
Qed.

Section Callers.
Context `{storagePkg : StoragePackage} `{repoPkg : RepoPackage}
        `{indexMethods : !IndexMethods} `{zapPkg : ZapPackage}.
Implicit Types (p : process).

Lemma pstep_measure l p p' : pstep l p = Some p' → pmeasure p' < pmeasure p.
Proof.
  unfold pmeasure. destruct l as [t|t|t sched]; simpl.
  - destruct (callers p !! t) as [[]|] eqn:Ht; try done.
    destruct (listObjectsGetDiff _ _) as [[[objects diff] [e|]] tr1];
      intros [= <-]; simpl.
    + pose proof (tally_insert callerRank _ _ _ (Finished (Some e)) Ht).
      simpl in *. lia.
    + pose proof (tally_insert callerRank _ _ _
                    (if negb (Change diff) then Finished None else AtLock) Ht).
      destruct (Change diff); simpl in *; lia.
  - destruct (callers p !! t) as [[]|] eqn:Ht; try done.
    destruct (StorageCacheLock (pserver p)); [done|].
    intros [= <-]; simpl.
    pose proof (tally_insert callerRank _ _ _ Regenerating Ht).
    simpl in *. lia.
  - destruct (callers p !! t) as [[]|] eqn:Ht; try done.
    destruct (regenerateBody _ _ _ _) as [[[[server1 heap1] e] tr1]|]; [|done].
    intros [= <-]; simpl.
    pose proof (tally_insert callerRank _ _ _ (Finished e) Ht).
    simpl in *. lia.
Qed.

(** While a caller has not finished, some caller can take a step. *)
Lemma pstep_progress p :
  regenerating p = (if StorageCacheLock (pserver p) then 1 else 0) →
  0 < pmeasure p → ∃ l p', pstep l p = Some p'.
Proof.
  unfold regenerating, pmeasure. intros Hinv Hpos.
  destruct (StorageCacheLock (pserver p)) eqn:Hlock.
  - destruct (tally_pos isRegenerating (callers p)) as (t & c & Ht & Hc);
      [lia|].
    destruct c; simpl in Hc; try lia.
    destruct (regenerateBody_total (pserver p) (pheap p) (ptrace p))
      as (sched & [[[server1 heap1] e] tr1] & Hb).
    exists (PRegenerate t sched). simpl. rewrite Ht, Hb. eauto.
  - destruct (tally_pos callerRank (callers p)) as (t & c & Ht & Hc);
      [lia|].
    destruct c; simpl in Hc; try lia.
    + exists (PList t). simpl. rewrite Ht.
      destruct (listObjectsGetDiff _ _) as [[[objects diff] [e|]] tr1]; eauto.
    + exists (PLock t). simpl. rewrite Ht, Hlock. eauto.
    + pose proof (tally_lookup_le isRegenerating _ _ _ Ht). simpl in *. lia.
Qed.

Lemma pexec_finish p :
  regenerating p = (if StorageCacheLock (pserver p) then 1 else 0) →
  ∃ ls p',
    pexec ls p = Some p'
    ∧ (∀ t c, callers p' !! t = Some c → ∃ e, c = Finished e)
    ∧ StorageCacheLock (pserver p') = false.
Proof.
  remember (pmeasure p) as m eqn:Hm. revert p Hm.
  induction (lt_wf m) as [m _ IH]. intros p -> Hinv.
  destruct (decide (pmeasure p = 0)) as [Hz|Hnz].
  - exists [], p. split; [done|].
    assert (Hfin : ∀ t c, callers p !! t = Some c → ∃ e, c = Finished e).
    { intros t c Ht.
      pose proof (tally_lookup_le callerRank _ _ _ Ht) as Hle.
      unfold pmeasure in Hz. destruct c; simpl in Hle; try lia. eauto. }
    split; [done|].
    destruct (StorageCacheLock (pserver p)); [|done].
    destruct (tally_pos isRegenerating (callers p)) as (t & c & Ht & Hc);
      [unfold regenerating in Hinv; lia|].
    destruct (Hfin t c Ht) as [e ->]. simpl in Hc. lia.
  - destruct (pstep_progress p Hinv) as (l & p1 & Hs); [lia|].
    destruct (IH (pmeasure p1)) with (p := p1) as (ls & p' & Hx & Hfin & Hl).
    + by eapply pstep_measure.
    + done.
    + by eapply pstep_regenerating.
    + exists (l :: ls), p'. simpl. rewrite Hs. done.
Qed.

(** X8.  Callers never deadlock: from every state that callers of
    [syncRepositoryIndex] and [regenerateRepositoryIndex] reach on a
    server whose lock was free, the run can go on until every caller has
    returned, and then the lock is free; every step brings the callers
    closer to that. *)
Theorem callers_can_always_finish p0 ls p :
  StorageCacheLock (pserver p0) = false →
  regenerating p0 = 0 →
  pexec ls p0 = Some p →
  (∃ ls' p',
      pexec ls' p = Some p'
      ∧ (∀ t c, callers p' !! t = Some c → ∃ e, c = Finished e)
      ∧ StorageCacheLock (pserver p') = false)
  ∧ (∀ l p1, pstep l p = Some p1 → pmeasure p1 < pmeasure p)
  ∧ (0 < pmeasure p → ∃ l p1, pstep l p = Some p1).
Proof.
  intros Hlock H0 Hx.
  assert (Hinv : regenerating p
                 = (if StorageCacheLock (pserver p) then 1 else 0)).
  { eapply pexec_regenerating; [|exact Hx]. by rewrite Hlock. }
  split_and!.
  - by apply pexec_finish.
  - intros l p1. apply pstep_measure.
  - by apply pstep_progress.
Qed.

End Callers.

(** ** What a regeneration leaves in the trace *)

Section Traces.
Context `{storagePkg : StoragePackage} `{repoPkg : RepoPackage}
        `{indexMethods : !IndexMethods} `{zapPkg : ZapPackage}.
Implicit Types (server : Server) (index : IndexView) (tr : trace) (ev : event).

Lemma objectEvent_resolution server object action load tr ev :
  ev ∈ (let '(r, tr1) := getObjectChartVersion server object load tr in
        match r with
        | Ok _ => tr1
        | Err e => (checkInvalidChartPackageError object e action tr1).2
        end) →
  ev ∈ tr ∨ objectEvent server action load object ev.
Proof.
  pose proof (getObjectChartVersion_value server object load tr []) as Hv.
  assert (Hget : ∀ q, q ∈ (getObjectChartVersion server object load tr).2 →
            q ∈ tr ∨ (load = true ∧ q = EvGetObject (Path object))).
  { intros q. unfold getObjectChartVersion. destruct load; [|by left].
    repeat case_match; simpl; intros [->|Hq]%elem_of_cons; auto. }
  destruct (getObjectChartVersion server object load tr) as [[c|e] tr1];
    cbn [fst snd] in *.
  - intros H. destruct (Hget _ H) as [?|?]; [by left|right; by left].
  - unfold checkInvalidChartPackageError. case_decide as He; simpl.
    + intros [->|H]%elem_of_cons.
      * right. right. split; [done|]. by rewrite <- Hv, He.
      * destruct (Hget _ H) as [?|?]; [by left|right; by left].
    + intros H. destruct (Hget _ H) as [?|?]; [by left|right; by left].
Qed.

Lemma removeIndexObject_events server index object tr ev :
  ev ∈ (removeIndexObject server index object tr).2 →
  ev ∈ tr ∨ objectEvent server "removed" false object ev.
Proof.
  intros H. apply objectEvent_resolution. revert H.
  unfold removeIndexObject.
  destruct (getObjectChartVersion server object false tr) as [[c|e] tr1];
    [done|].
  by destruct (checkInvalidChartPackageError _ _ _ _).
Qed.

Lemma updateIndexObject_events server index object tr ev :
  ev ∈ (updateIndexObject server index object tr).2 →
  ev ∈ tr ∨ objectEvent server "updated" true object ev.
Proof.
  intros H. apply objectEvent_resolution. revert H.
  unfold updateIndexObject.
  destruct (getObjectChartVersion server object true tr) as [[c|e] tr1];
    [done|].
  by destruct (checkInvalidChartPackageError _ _ _ _).
Qed.

Lemma resolveAdded_events server object tr ev :
  ev ∈ (resolveAdded server object tr).2 →
  ev ∈ tr ∨ objectEvent server "added" true object ev.
Proof.
  intros H. apply objectEvent_resolution. revert H.
  unfold resolveAdded.
  destruct (getObjectChartVersion server object true tr) as [[c|e] tr1];
    [done|].
  by destruct (checkInvalidChartPackageError _ _ _ _).
Qed.

Lemma forEachObject_events body (P : Object → event → Prop)
    objects index tr ev :
  (∀ index object tr ev,
      ev ∈ (body index object tr).2 → ev ∈ tr ∨ P object ev) →
  ev ∈ (forEachObject body objects index tr).2 →
  ev ∈ tr ∨ ∃ o, o ∈ objects ∧ P o ev.
Proof.
  intros Hbody. revert index tr.
  induction objects as [|o rest IH]; simpl; intros index tr; [by left|].
  pose proof (Hbody index o tr ev) as Hb.
  destruct (body index o tr) as [[index1 [e1|]] tr1]; simpl in *.
  - intros H. destruct (Hb H) as [?|?]; [by left|right].
    exists o. split; [apply list_elem_of_here|done].
  - intros H. apply IH in H as [H|(o' & Ho' & H)].
    + destruct (Hb H) as [?|?]; [by left|right].
      exists o. split; [apply list_elem_of_here|done].
    + right. exists o'. split; [by apply list_elem_of_further|done].
Qed.

Lemma astep_events server objects l (s s' : async) ev :
  astep server objects l s = Some s' → ev ∈ atrace s' →
  ev ∈ atrace s ∨ ∃ o, o ∈ objects ∧ objectEvent server "added" true o ev.
Proof.
  destruct l as [i|i|i]; simpl.
  - destruct (gos s !! i) as [[]|]; try done. intros [= <-]. by left.
  - destruct (gos s !! i) as [[]|]; try done.
    destruct (objects !! i) as [o|] eqn:Ho; [|done].
    pose proof (resolveAdded_events server o (atrace s) ev) as He.
    destruct (resolveAdded server o (atrace s)) as [r tr1].
    intros [= <-]. simpl in *. intros H.
    destruct (He H) as [?|?]; [by left|right].
    exists o. split; [by eapply list_elem_of_lookup_2|done].
  - destruct (gos s !! i) as [[| |r| |]|]; try done.
    destruct (coord s); [|done]. intros [= <-].
    rewrite receive_atrace. by left.
Qed.

Lemma aexec_events server objects sched (s s' : async) ev :
  aexec server objects sched s = Some s' → ev ∈ atrace s' →
  ev ∈ atrace s ∨ ∃ o, o ∈ objects ∧ objectEvent server "added" true o ev.
Proof.
  revert s. induction sched as [|l sched IH]; simpl; intros s.
  - intros [= <-]. by left.
  - destruct (astep server objects l s) as [s1|] eqn:Hs; [|done].
    intros H Hev. destruct (IH _ H Hev) as [H1|H1]; [|by right].
    eauto using astep_events.
Qed.

Lemma addIndexObjectsAsync_events
    sched server index objects tr index' e tr' ev :
  addIndexObjectsAsync sched server index objects tr = Some (index', e, tr') →
  ev ∈ tr' →
  ev ∈ tr ∨ ∃ o, o ∈ objects ∧ objectEvent server "added" true o ev.
Proof.
  destruct objects as [|o objects].
  - intros [= <- <- <-]. by left.
  - intros H. apply addIndexObjectsAsync_inv in H
      as (s & [sched' Hx] & _ & _ & _ & <-); [|simpl; lia].
    intros Hev. by apply (aexec_events _ _ _ _ _ _ Hx) in Hev.
Qed.

(** X9.  Everything a regeneration adds to the trace is accounted for by
    its listing and its diff: the listing itself, a fetch of an updated
    or an added object, or a warning that names an object of the diff
    with the action of its set and that resolved to
    [ErrorInvalidChartPackage].  Removed objects are never fetched and no
    warning is logged for a package that is valid or failed fatally. *)
Theorem regeneration_trace_is_explained_by_the_diff
    sched server heap tr server' heap' e tr' ev :
  regenerateRepositoryIndex sched server heap tr
  = Some (server', heap', e, tr') →
  ev ∈ tr' →
  ev ∈ tr ∨ ev = EvListObjects
  ∨ ∃ allObjects o,
      ListObjects (StorageBackend server) = Ok allObjects
      ∧ let diff := GetObjectSliceDiff (StorageCache server)
                                       (filterObjects allObjects) in
        (o ∈ Removed diff ∧ objectEvent server "removed" false o ev)
        ∨ (o ∈ Updated diff ∧ objectEvent server "updated" true o ev)
        ∨ (o ∈ Added diff ∧ objectEvent server "added" true o ev).
Proof.
  unfold regenerateRepositoryIndex.
  destruct (StorageCacheLock server); [done|].
  destruct (regenerateBody _ _ _ _) as [[[[server1 heap1] e1] tr1]|] eqn:Hb;
    [|done].
  intros [= _ _ _ <-]. revert Hb.
  unfold regenerateBody, listObjectsGetDiff. simpl.
  destruct (ListObjects (StorageBackend server)) as [allObjects|e0].
  2: { intros [= _ _ _ <-] [->|H]%elem_of_cons; auto. }
  set (diff := GetObjectSliceDiff _ _).
  set (index0 := (copyIndex _, heap)).
  set (locked := setLock server true).
  assert (Hexp : ∀ q,
            q ∈ EvListObjects :: tr
            ∨ (∃ o, o ∈ Removed diff ∧ objectEvent server "removed" false o q)
            ∨ (∃ o, o ∈ Updated diff ∧ objectEvent server "updated" true o q)
            ∨ (∃ o, o ∈ Added diff ∧ objectEvent server "added" true o q) →
            q ∈ tr ∨ q = EvListObjects
            ∨ ∃ allObjects0 o,
                Ok allObjects = Ok allObjects0
                ∧ let diff := GetObjectSliceDiff (StorageCache server)
                                (filterObjects allObjects0) in
                  (o ∈ Removed diff ∧ objectEvent server "removed" false o q)
                  ∨ (o ∈ Updated diff
                     ∧ objectEvent server "updated" true o q)
                  ∨ (o ∈ Added diff ∧ objectEvent server "added" true o q)).
  { intros q [[->|H]%elem_of_cons|[(o & ? & ?)|[(o & ? & ?)|(o & ? & ?)]]];
      auto; right; right; exists allObjects, o; split; auto. }
  pose proof (forEachObject_events (removeIndexObject locked)
                (objectEvent server "removed" false)
                (Removed diff) index0 (EvListObjects :: tr)) as Hf1.
  destruct (forEachObject (removeIndexObject locked) _ _ _)
    as [[index1 e2] tr2]; simpl in Hf1.
  assert (H1 : ∀ q, q ∈ tr2 →
            q ∈ EvListObjects :: tr
            ∨ ∃ o, o ∈ Removed diff ∧ objectEvent server "removed" false o q).
  { intros q. apply Hf1. intros index object tr0 ev0.
    exact (removeIndexObject_events locked index object tr0 ev0). }
  destruct e2 as [e2|].
  { intros [= _ _ _ <-] Hev. apply Hexp. destruct (H1 _ Hev); auto. }
  pose proof (forEachObject_events (updateIndexObject locked)
                (objectEvent server "updated" true)
                (Updated diff) index1 tr2) as Hf2.
  destruct (forEachObject (updateIndexObject locked) _ _ _)
    as [[index2 e3] tr3]; simpl in Hf2.
  assert (H2 : ∀ q, q ∈ tr3 →
            q ∈ tr2
            ∨ ∃ o, o ∈ Updated diff ∧ objectEvent server "updated" true o q).
  { intros q. apply Hf2. intros index object tr0 ev0.
    exact (updateIndexObject_events locked index object tr0 ev0). }
  assert (H12 : ∀ q, q ∈ tr3 →
            q ∈ EvListObjects :: tr
            ∨ (∃ o, o ∈ Removed diff
                    ∧ objectEvent server "removed" false o q)
            ∨ (∃ o, o ∈ Updated diff
                    ∧ objectEvent server "updated" true o q)
            ∨ (∃ o, o ∈ Added diff ∧ objectEvent server "added" true o q)).
  { intros q Hq. destruct (H2 _ Hq) as [Hq'|?]; [|auto].
    destruct (H1 _ Hq'); auto. }
  destruct e3 as [e3|].
  { intros [= _ _ _ <-] Hev. apply Hexp. auto. }
  destruct (addIndexObjectsAsync sched locked index2 (Added diff) tr3)
    as [[[index3 e4] tr4]|] eqn:Ha; [|done].
  assert (H3 : ∀ q, q ∈ tr4 →
            q ∈ tr3
            ∨ ∃ o, o ∈ Added diff ∧ objectEvent server "added" true o q).
  { intros q.
    exact (addIndexObjectsAsync_events _ locked _ _ _ _ _ _ q Ha). }
  assert (H123 : ∀ q, q ∈ tr4 →
            q ∈ EvListObjects :: tr
            ∨ (∃ o, o ∈ Removed diff
                    ∧ objectEvent server "removed" false o q)
            ∨ (∃ o, o ∈ Updated diff
                    ∧ objectEvent server "updated" true o q)
            ∨ (∃ o, o ∈ Added diff ∧ objectEvent server "added" true o q)).
  { intros q Hq. destruct (H3 _ Hq) as [Hq'|?]; auto. }
  destruct e4 as [e4|].
  { intros [= _ _ _ <-] Hev. apply Hexp. auto. }
  destruct (Regenerate index3) as [index4 [e5|]];
    intros [= _ _ _ <-] Hev; apply Hexp; auto.
Qed.

End Traces.

(** ** Listings, untouched fields and the first regeneration *)

Lemma diff_from_empty os :
  GetObjectSliceDiff [] os
  = {| Change := negb (Nat.eqb (length os) 0);
       Removed := []; Added := os; Updated := [] |}.
Proof.
  assert (Ha : filter (fun o2 : Object => hasPath [] (Path o2) = false) os = os).
  { induction os as [|o os IH]; [done|].
    rewrite filter_cons_True; [by rewrite IH|].
    apply hasPath_false. by intros ?%elem_of_nil. }
  assert (Hu : filter (fun o2 : Object => markerChanged [] o2 = true) os = []).
  { clear Ha. induction os as [|o os IH]; [done|].
    rewrite filter_cons_False by (unfold markerChanged; simpl; congruence).
    exact IH. }
  unfold GetObjectSliceDiff. rewrite Ha, Hu. simpl.
  by rewrite !Nat.add_0_r.
Qed.

Section Startup.
Context `{storagePkg : StoragePackage} `{repoPkg : RepoPackage}
        `{indexMethods : !IndexMethods} `{zapPkg : ZapPackage}.
Implicit Types (server : Server) (index : IndexView) (tr : trace).

Lemma checkInvalid_listings object e action tr :
  listings (checkInvalidChartPackageError object e action tr).2 = listings tr.
Proof. unfold checkInvalidChartPackageError. by case_decide. Qed.

Lemma getObjectChartVersion_listings server object load tr :
  listings (getObjectChartVersion server object load tr).2 = listings tr.
Proof. unfold getObjectChartVersion. repeat case_match; done. Qed.

Lemma resolution_listings server object action load tr :
  listings (let '(r, tr1) := getObjectChartVersion server object load tr in
            match r with
            | Ok _ => tr1
            | Err e => (checkInvalidChartPackageError object e action tr1).2
            end) = listings tr.
Proof.
  pose proof (getObjectChartVersion_listings server object load tr) as H.
  destruct (getObjectChartVersion server object load tr) as [[c|e] tr1];
    simpl in H; [done|].
  by rewrite checkInvalid_listings.
Qed.

Lemma removeIndexObject_listings server index object tr :
  listings (removeIndexObject server index object tr).2 = listings tr.
Proof.
  rewrite <- (resolution_listings server object "removed" false tr).
  unfold removeIndexObject.
  destruct (getObjectChartVersion server object false tr) as [[c|e] tr1];
    [done|].
  by destruct (checkInvalidChartPackageError _ _ _ _).
Qed.

Lemma updateIndexObject_listings server index object tr :
  listings (updateIndexObject server index object tr).2 = listings tr.
Proof.
  rewrite <- (resolution_listings server object "updated" true tr).
  unfold updateIndexObject.
  destruct (getObjectChartVersion server object true tr) as [[c|e] tr1];
    [done|].
  by destruct (checkInvalidChartPackageError _ _ _ _).
Qed.

Lemma resolveAdded_listings server object tr :
  listings (resolveAdded server object tr).2 = listings tr.
Proof.
  rewrite <- (resolution_listings server object "added" true tr).
  unfold resolveAdded.
  destruct (getObjectChartVersion server object true tr) as [[c|e] tr1];
    [done|].
  by destruct (checkInvalidChartPackageError _ _ _ _).
Qed.

Lemma forEachObject_listings body objects index tr :
  (∀ index object tr, listings (body index object tr).2 = listings tr) →
  listings (forEachObject body objects index tr).2 = listings tr.
Proof.
  intros Hbody. revert index tr.
  induction objects as [|o rest IH]; simpl; intros index tr; [done|].
  pose proof (Hbody index o tr) as Hb.
  destruct (body index o tr) as [[index1 [e1|]] tr1]; simpl in *; [done|].
  by rewrite IH.
Qed.

Lemma aexec_listings server objects sched (s s' : async) :
  aexec server objects sched s = Some s' →
  listings (atrace s') = listings (atrace s).
Proof.
  revert s. induction sched as [|l sched IH]; simpl; intros s.
  - by intros [= <-].
  - destruct (astep server objects l s) as [s1|] eqn:Hs; [|done].
    intros H. rewrite (IH _ H). clear H IH.
    destruct l as [i|i|i]; simpl in Hs.
    + destruct (gos s !! i) as [[]|]; by simplify_eq.
    + destruct (gos s !! i) as [[]|]; try done.
      destruct (objects !! i) as [o|]; [|done].
      pose proof (resolveAdded_listings server o (atrace s)) as Hl.
      destruct (resolveAdded server o (atrace s)) as [r tr1].
      by simplify_eq.
    + destruct (gos s !! i) as [[| |r| |]|]; try done.
      destruct (coord s); [|done]. simplify_eq.
      by rewrite receive_atrace.
Qed.

Lemma addIndexObjectsAsync_listings
    sched server index objects tr index' e tr' :
  addIndexObjectsAsync sched server index objects tr = Some (index', e, tr') →
  listings tr' = listings tr.
Proof.
  destruct objects as [|o objects].
  - by intros [= <- <- <-].
  - intros H. apply addIndexObjectsAsync_inv in H
      as (s & [sched' Hx] & _ & _ & _ & <-); [|simpl; lia].
    by apply aexec_listings in Hx.
Qed.

Lemma regenerateBody_listings sched server heap tr server' heap' e tr' :
  regenerateBody sched server heap tr = Some (server', heap', e, tr') →
  listings tr' = S (listings tr).
Proof.
  unfold regenerateBody, listObjectsGetDiff.
  destruct (ListObjects (StorageBackend server)) as [allObjects|e0];
    [|by intros [= _ _ _ <-]].
  set (diff := GetObjectSliceDiff _ _).
  set (index0 := (copyIndex _, heap)).
  pose proof (forEachObject_listings (removeIndexObject server)
                (Removed diff) index0 (EvListObjects :: tr)
                (removeIndexObject_listings server)) as H1.
  destruct (forEachObject (removeIndexObject server) _ _ _)
    as [[index1 e1] tr1]; simpl in H1.
  destruct e1 as [e1|]; [by intros [= _ _ _ <-]|].
  pose proof (forEachObject_listings (updateIndexObject server)
                (Updated diff) index1 tr1
                (updateIndexObject_listings server)) as H2.
  destruct (forEachObject (updateIndexObject server) _ _ _)
    as [[index2 e2] tr2]; simpl in H2.
  destruct e2 as [e2|]; [intros [= _ _ _ <-]; congruence|].
  destruct (addIndexObjectsAsync sched server index2 (Added diff) tr2)
    as [[[index3 e3] tr3]|] eqn:Ha; [|done].
  apply addIndexObjectsAsync_listings in Ha.
  destruct e3 as [e3|]; [intros [= _ _ _ <-]; congruence|].
  destruct (Regenerate index3) as [index4 [e4|]];
    intros [= _ _ _ <-]; congruence.
Qed.

(** X10.  [syncRepositoryIndex] lists the store once when the listing
    fails or shows no change, and twice when it regenerates: the
    regeneration lists again under the lock. *)
Theorem sync_lists_once_or_twice sched server heap tr server' heap' e tr' :
  syncRepositoryIndex sched server heap tr = Some (server', heap', e, tr') →
  listings tr' =
  listings tr
  + match ListObjects (StorageBackend server) with
    | Err _ => 1
    | Ok allObjects =>
        if Change (GetObjectSliceDiff (StorageCache server)
                                      (filterObjects allObjects))
        then 2 else 1
    end.
Proof.
  unfold syncRepositoryIndex, listObjectsGetDiff.
  destruct (ListObjects (StorageBackend server)) as [allObjects|e0].
  2: { intros [= _ _ _ <-]. simpl. lia. }
  destruct (Change _); simpl.
  - unfold regenerateRepositoryIndex.
    destruct (StorageCacheLock server); [done|].
    destruct (regenerateBody _ _ _ _) as [[[[server1 heap1] e1] tr1]|] eqn:Hb;
      [|done].
    intros [= _ _ _ <-]. apply regenerateBody_listings in Hb. simpl in Hb. lia.
  - intros [= _ _ _ <-]. simpl. lia.
Qed.

(** X11.  A synchronisation assigns nothing but the index and the cache:
    whatever [syncRepositoryIndex] or [regenerateRepositoryIndex]
    returns, the server afterwards is the server before with at most
    [RepositoryIndex] and [StorageCache] replaced; the backend, the
    lock, the logger, the router and the settings are as they were. *)
Theorem sync_touches_only_index_and_cache
    sched server heap tr server' heap' e tr' :
  syncRepositoryIndex sched server heap tr = Some (server', heap', e, tr')
  ∨ regenerateRepositoryIndex sched server heap tr
    = Some (server', heap', e, tr') →
  server' = publish server (RepositoryIndex server') (StorageCache server').
Proof.
  assert (Hid : ∀ s : Server,
            s = publish s (RepositoryIndex s) (StorageCache s))
    by (by intros []).
  assert (Hregen : ∀ tr0,
    regenerateRepositoryIndex sched server heap tr0
    = Some (server', heap', e, tr') →
    server' = publish server (RepositoryIndex server') (StorageCache server')).
  { destruct e as [e|]; intros tr0 H.
    - apply regenerate_failure in H as ->. apply Hid.
    - by apply regenerate_success in H as (_ & allObjects & published & _ & ->). }
  intros [H|H]; [|by apply (Hregen tr)].
  revert H. unfold syncRepositoryIndex.
  destruct (listObjectsGetDiff server tr) as [[[objects diff] [e0|]] tr1].
  - intros [= <- _ _ _]. apply Hid.
  - destruct (Change diff); simpl; [apply Hregen|].
    intros [= <- _ _ _]. apply Hid.
Qed.

Lemma addIndexObjectsAsync_success sched server index objects tr index' tr' :
  addIndexObjectsAsync sched server index objects tr = Some (index', None, tr') →
  fetched tr' ≡ₚ paths objects ++ fetched tr
  ∧ ∃ received,
      received ≡ₚ objects
      ∧ index' = foldl AddEntry index
                   (omap (fun o => cv (outcome server o)) received).
Proof.
  intros Ha. destruct objects as [|o0 objects'] eqn:Hobjects.
  { unfold addIndexObjectsAsync in Ha. simpl in Ha. simplify_eq.
    split; [done|]. by exists []. }
  apply addIndexObjectsAsync_inv in Ha
    as (s & Hreach & (Hlen & _ & Hc) & Hco & <- & <-); [|simpl; lia].
  apply ahistory_reachable in Hreach
    as [Hf (received & Hrec & Hidx)]; [|simpl; lia].
  unfold coordInv in Hc. rewrite Hco in Hc. destruct Hc as [_ Hall].
  assert (Hpick : ∀ f, (∀ r, f (GDelivered r) = true) →
            pick f (o0 :: objects') (gos s) = o0 :: objects').
  { intros f Hfd. apply pick_all; [done|]. intros i g Hi.
    destruct (Hall i) as (r & Hr & _).
    { rewrite <- Hlen. by eapply lookup_lt_Some. }
    rewrite Hi in Hr. by simplify_eq. }
  rewrite Hpick in Hf, Hrec by done. split; [done|].
  exists received. split; [done|]. by rewrite <- foldl_addReceived.
Qed.

Lemma cv_outcome server o : cv (outcome server o) = chartOf server true o.
Proof.
  unfold outcome, chartOf, resolveAdded.
  destruct (getObjectChartVersion server o true []) as [[c|e] tr1]; [done|].
  simpl. by destruct (checkInvalidChartPackageError _ _ _ _).
Qed.

Lemma removeIndexObject_success server index o tr index' tr' :
  removeIndexObject server index o tr = (index', None, tr') →
  index' = match chartOf server false o with
           | Some chartVersion => RemoveEntry index chartVersion
           | None => index
           end.
Proof.
  unfold removeIndexObject, chartOf.
  rewrite (getObjectChartVersion_value server o false [] tr).
  destruct (getObjectChartVersion server o false tr) as [[c|e] tr1]; simpl.
  - by intros [= <- _].
  - destruct (checkInvalidChartPackageError _ _ _ _). by intros [= <- _ _].
Qed.

Lemma updateIndexObject_success server index o tr index' tr' :
  updateIndexObject server index o tr = (index', None, tr') →
  index' = match chartOf server true o with
           | Some chartVersion => UpdateEntry index chartVersion
           | None => index
           end.
Proof.
  unfold updateIndexObject, chartOf.
  rewrite (getObjectChartVersion_value server o true [] tr).
  destruct (getObjectChartVersion server o true tr) as [[c|e] tr1]; simpl.
  - by intros [= <- _].
  - destruct (checkInvalidChartPackageError _ _ _ _). by intros [= <- _ _].
Qed.

Lemma forEachObject_success body
    (f : IndexView -> ChartVersion -> IndexView)
    (chart : Object -> option ChartVersion) objects index tr index' tr' :
  (∀ index o tr index' tr',
     body index o tr = (index', None, tr') →
     index' = match chart o with
              | Some chartVersion => f index chartVersion
              | None => index
              end) →
  forEachObject body objects index tr = (index', None, tr') →
  index' = foldl f index (omap chart objects).
Proof.
  intros Hbody. revert index tr.
  induction objects as [|o rest IH]; simpl; intros index tr.
  - by intros [= <- _].
  - destruct (body index o tr) as [[index1 [e1|]] tr1] eqn:Hb; [done|].
    apply Hbody in Hb as ->. intros H%IH.
    by destruct (chart o).
Qed.

(** X12.  What a successful regeneration computes: the index it installs
    and the heap it leaves are [Regenerate] of the published index, on
    the heap it was given, with [RemoveEntry] applied for the removed
    objects in diff order, then [UpdateEntry] for the updated objects in
    diff order, then [AddEntry] for the added objects in the order their
    goroutines delivered; objects that resolve to no chart version are
    passed over. *)
Theorem regeneration_removes_updates_then_adds
    sched server heap tr server' heap' tr' :
  regenerateRepositoryIndex sched server heap tr
  = Some (server', heap', None, tr') →
  ∃ allObjects received,
    ListObjects (StorageBackend server) = Ok allObjects
    ∧ let diff := GetObjectSliceDiff (StorageCache server)
                                     (filterObjects allObjects) in
      received ≡ₚ Added diff
      ∧ (RepositoryIndex server', heap')
        = (Regenerate
             (foldl AddEntry
                (foldl UpdateEntry
                   (foldl RemoveEntry (RepositoryIndex server, heap)
                          (omap (chartOf server false) (Removed diff)))
                   (omap (chartOf server true) (Updated diff)))
                (omap (chartOf server true) received))).1.
Proof.
  unfold regenerateRepositoryIndex.
  destruct (StorageCacheLock server); [done|].
  destruct (regenerateBody sched (setLock server true) heap tr)
    as [[[[server1 heapb] eb] trb]|] eqn:Hb; [|done].
  intros [= <- <- -> <-]. revert Hb.
  unfold regenerateBody, listObjectsGetDiff. simpl.
  destruct (ListObjects (StorageBackend server)) as [allObjects|e0]; [|done].
  set (locked := setLock server true).
  set (diff := GetObjectSliceDiff _ _).
  rewrite index_copy.
  destruct (forEachObject (removeIndexObject locked) _ _ _)
    as [[index1 [e1|]] tr1] eqn:H1; [done|].
  apply (forEachObject_success _ RemoveEntry (chartOf locked false)) in H1;
    [|apply removeIndexObject_success].
  destruct (forEachObject (updateIndexObject locked) _ _ _)
    as [[index2 [e2|]] tr2] eqn:H2; [done|].
  apply (forEachObject_success _ UpdateEntry (chartOf locked true)) in H2;
    [|apply updateIndexObject_success].
  destruct (addIndexObjectsAsync sched locked index2 (Added diff) tr2)
    as [[[index3 [e3|]] tr3]|] eqn:Ha; [done| |done].
  apply addIndexObjectsAsync_success in Ha as (_ & received & Hrec & Hidx).
  destruct (Regenerate index3) as [[published heap4] [e4|]] eqn:Hr; [done|].
  intros [= <- <- <-]. exists allObjects, received.
  split; [done|]. split; [done|]. simpl.
  transitivity (Regenerate index3).1; [by rewrite Hr|].
  assert (Hom : omap (fun o => cv (outcome locked o)) received
                = omap (chartOf server true) received).
  { clear. induction received as [|o rest IH]; [done|].
    cbn [omap list_omap]. rewrite IH, cv_outcome. reflexivity. }
  rewrite Hidx, H2, H1, Hom. reflexivity.
Qed.

(** X13.  What [NewServer] has done when it returns a nil error.  When
    the logger could not be built it returns the zero server and has
    neither listed nor fetched nor allocated anything.  Otherwise the
    first regeneration has loaded the whole store: every package of the
    listing was fetched exactly once, the cache is the filtered listing,
    and the index and the heap are [Regenerate] of the new index with
    [AddEntry] applied once per package that resolved to a chart, in some
    order of the packages. *)
Theorem startup_loads_every_package_once
    sched options heap tr sp heap' tr' :
  NewServer sched options heap tr = Some (sp, heap', None, tr') →
  match configBuild (OptLogJSON options) (OptDebug options) with
  | Some _ => sp = ZeroServer ∧ heap' = heap ∧ tr' = tr
  | None =>
      ∃ server' allObjects received,
        sp = ServerAt server'
        ∧ ListObjects (OptStorageBackend options) = Ok allObjects
        ∧ StorageCache server' = filterObjects allObjects
        ∧ fetched tr' ≡ₚ paths (filterObjects allObjects) ++ fetched tr
        ∧ received ≡ₚ filterObjects allObjects
        ∧ (RepositoryIndex server', heap')
          = (Regenerate
               (foldl AddEntry (NewIndex (OptChartURL options) heap)
                      (omap (fun o => cv (outcome server' o)) received))).1
  end.
Proof.
  unfold NewServer, NewLogger.
  destruct (configBuild _ _) as [e0|]; [by intros [= <- <- <-]|].
  set (built := buildServer options _ heap).
  unfold regenerateRepositoryIndex. simpl.
  destruct (regenerateBody sched (setLock built true) _ tr)
    as [[[[server1 heap1] e1] tr1]|] eqn:Hb; [|done].
  intros [= <- <- -> <-]. revert Hb.
  unfold regenerateBody, listObjectsGetDiff. simpl.
  destruct (ListObjects (OptStorageBackend options)) as [allObjects|e0];
    [|done].
  rewrite diff_from_empty. simpl.
  set (locked := setLock built true).
  set (filtered := filterObjects allObjects).
  rewrite index_copy, <- surjective_pairing.
  destruct (addIndexObjectsAsync sched locked _ filtered _)
    as [[[index3 [e3|]] tr3]|] eqn:Ha; [done| |done].
  apply addIndexObjectsAsync_success in Ha as (Hf & received & Hrec & Hidx).
  destruct (Regenerate index3) as [[published heap4] [e4|]] eqn:Hr; [done|].
  intros [= <- <- <-].
  eexists _, allObjects, received.
  split_and!; try done. simpl.
  transitivity (Regenerate index3).1; [by rewrite Hr|].
  rewrite Hidx. reflexivity.
Qed.

End Startup.

(** ** The engine on a concrete store *)

Import Fixture.

(** The spec's scenario of an addition: the cache holds [a], the store
    shows [a] and [b]; after the synchronisation the index has both and
    the cache is the listing. *)
Example sync_adds_new_package :
  let backend := store [obj "a-1.0.0.tgz" 1; obj "b-2.0.0.tgz" 1]
                       [("a-1.0.0.tgz", Ok gz); ("b-2.0.0.tgz", Ok gz)] in
  let index := indexOf [chart "a" "1.0.0"] in
  let before := server backend [obj "a-1.0.0.tgz" 1] index.1 in
  summary (syncRepositoryIndex (seqSchedule 1) before index.2 [])
  = Some ([("a", "1.0.0"); ("b", "2.0.0")],
          ["a-1.0.0.tgz"; "b-2.0.0.tgz"], None, ["b-2.0.0.tgz"]).
Proof. by_evaluation. Qed.

(** The spec's scenario of a removal: no fetch happens for [c]. *)
Example sync_removes_without_fetch :
  let backend := store [obj "a-1.0.0.tgz" 1] [("a-1.0.0.tgz", Ok gz)] in
  let index := indexOf [chart "a" "1.0.0"; chart "c" "3.0.0"] in
  let before := server backend [obj "a-1.0.0.tgz" 1; obj "c-3.0.0.tgz" 1]
                       index.1 in
  summary (syncRepositoryIndex [] before index.2 [])
  = Some ([("a", "1.0.0")], ["a-1.0.0.tgz"], None, []).
Proof. by_evaluation. Qed.

(** When the fetch of [y] fails after [x] and [z] were received, the index
    the coordinator worked on has their entries. *)
Example working_index_had_entries :
  (s ← arun failingServer added1 lateFailure (asyncInit index1 added1 []);
   Some (coord s, (map_to_list (entries (aindex s))).*1))
  = Some (CReturned (Some (ErrOther "timeout")),
          [("old", "1.0.0"); ("upd", "1.0.0"); ("z", "1.0.0"); ("x", "1.0.0")]).
Proof. by_evaluation. Qed.

(** An object that is no package leaves the other entries alone. *)
Example sync_skips_invalid_packages :
  summary (syncRepositoryIndex inOrder healthyServer heap1 [])
  = Some ([("upd", "1.0.0"); ("x", "1.0.0")],
          ["upd-1.0.0.tgz"; "x-1.0.0.tgz"; "y-1.0.0.tgz"; "z-1.0.0.tgz"],
          None,
          ["z-1.0.0.tgz"; "y-1.0.0.tgz"; "x-1.0.0.tgz"; "upd-1.0.0.tgz"]).
Proof. by_evaluation. Qed.

(** C1, at a failing input.  The cache holds [old] and [upd]; the store
    has lost [old], changed [upd] and gained [x], [y] and [z]; the fetch
    of [y] times out after [x] and [z] were received.
    [syncRepositoryIndex] returns the timeout and has assigned neither
    [RepositoryIndex] nor [StorageCache]: the server is the one before the
    call, its document [Raw] and its cache still describe [old] and
    [upd].  Yet the entries the published index shows have changed:
    [old] is gone and [x] and [z] are there.  The working index of lines
    228-232 points to the same index file as the published one, so the
    removal, the update and the two additions made before the failure are
    visible afterwards. *)
Theorem failed_regeneration_leaks_entries :
  syncRepositoryIndex lateFailure failingServer heap1 []
  = Some (failingServer, leakedHeap, Some (ErrOther "timeout"), failedTrace)
  ∧ paths (StorageCache failingServer) = ["old-1.0.0.tgz"; "upd-1.0.0.tgz"]
  ∧ published failingServer heap1 = [("old", "1.0.0"); ("upd", "1.0.0")]
  ∧ published failingServer leakedHeap
    = [("upd", "1.0.0"); ("z", "1.0.0"); ("x", "1.0.0")]
  ∧ leakedHeap ≠ heap1.
Proof.
  assert (Hbefore : published failingServer heap1
                    = [("old", "1.0.0"); ("upd", "1.0.0")]) by by_evaluation.
  assert (Hafter : published failingServer leakedHeap
                   = [("upd", "1.0.0"); ("z", "1.0.0"); ("x", "1.0.0")])
    by by_evaluation.
  split_and!; [by_evaluation|by_evaluation|exact Hbefore|exact Hafter|].
  intros Heq. rewrite Heq, Hbefore in Hafter. discriminate Hafter.
Qed.

(** The coordinator returns the timeout of [y] after one receive; the
    values of [x] and [z] are never received and their goroutines stay in
    their send: the fan-in does not drain. *)
Lemma fan_in_does_not_drain :
  areachable failingServer index1 added1 [] afterEarlyFailure
  ∧ coord afterEarlyFailure = CReturned (Some (ErrOther "timeout"))
  ∧ delivered afterEarlyFailure = 1
  ∧ length added1 = 3
  ∧ (∀ sched s',
        aexec failingServer added1 sched afterEarlyFailure = Some s' →
        delivered s' = 1
        ∧ gos s' !! 0 = gos afterEarlyFailure !! 0
        ∧ ∃ r, gos s' !! 0 = Some (GSending r))
  ∧ ¬ drainsAfterReturn failingServer index1 added1 [].
Proof.
  assert (Hreach : areachable failingServer index1 added1 [] afterEarlyFailure).
  { exists earlyFailure. by_evaluation. }
  assert (Hstay : ∀ sched s',
            aexec failingServer added1 sched afterEarlyFailure = Some s' →
            delivered s' = 1
            ∧ gos s' !! 0 = gos afterEarlyFailure !! 0
            ∧ ∃ r, gos s' !! 0 = Some (GSending r)).
  { intros sched s' Hx.
    destruct (aexec_after_return failingServer added1 sched
                afterEarlyFailure s' (Some (ErrOther "timeout"))
                eq_refl Hx) as (_ & _ & Hd & Hs).
    split; [exact Hd|]. rewrite (Hs 0 _ eq_refl). split; [done|eauto]. }
  split_and!; [exact Hreach|reflexivity|reflexivity|reflexivity|exact Hstay|].
  intros Hdrain.
  destruct (Hdrain afterEarlyFailure _ Hreach eq_refl)
    as (sched & s' & Hx & Hnone).
  destruct (Hstay sched s' Hx) as (_ & _ & r & Hr).
  exact (Hnone 0 r Hr).
Qed.

Lemma fan_in_witness :
  0 < length added1
  ∧ areachable failingServer index1 added1 [] afterEarlyFailure
  ∧ delivered afterEarlyFailure ≤ length added1
  ∧ ∃ i o, added1 !! i = Some o
           ∧ err (outcome failingServer o) = Some (ErrOther "timeout").
Proof.
  assert (Hlen : 0 < length added1) by (simpl; lia).
  assert (Hreach : areachable failingServer index1 added1 [] afterEarlyFailure).
  { exists earlyFailure. by_evaluation. }
  destruct (fan_in_returns_at_first_fatal_outcome
              failingServer index1 added1 [] afterEarlyFailure Hlen Hreach)
    as (Hle & _ & _ & Herr & _).
  destruct (Herr (ErrOther "timeout") eq_refl)
    as (_ & i & o & Ho & _ & He & _).
  split_and!; [exact Hlen|exact Hreach|exact Hle|].
  exists i, o. split; [exact Ho|exact He].
Defined.



Lemma extension_filter_witness :
  let readme := obj "README.md" 1 in
  let objects := filterObjects listing1 in
  let diff := GetObjectSliceDiff cache1 objects in
  Forall (fun c => HasExtension c ChartPackageFileExtension = true)
         (StorageCache healthyServer)
  ∧ listObjectsGetDiff healthyServer [] = (objects, diff, None, [EvListObjects])
  ∧ HasExtension readme ChartPackageFileExtension = false
  ∧ readme ∈ listing1
  ∧ (readme ∉ objects) ∧ (readme ∉ Added diff) ∧ (readme ∉ Updated diff)
  ∧ (readme ∉ Removed diff)
  ∧ (readme ∉ StorageCache syncedServer).
Proof.
  intros readme objects diff.
  assert (Hc : Forall (fun c => HasExtension c ChartPackageFileExtension = true)
                      (StorageCache healthyServer)).
  { repeat constructor; by_evaluation. }
  assert (Hl : listObjectsGetDiff healthyServer []
               = (objects, diff, None, [EvListObjects])) by by_evaluation.
  assert (Ho : HasExtension readme ChartPackageFileExtension = false)
    by by_evaluation.
  assert (Hs : syncRepositoryIndex inOrder healthyServer heap1 []
               = Some (syncedServer, syncedHeap, None,
                       syncedTrace ++ [EvListObjects]))
    by by_evaluation.
  destruct (extension_filter_hides_other_objects
              healthyServer [] objects diff [EvListObjects] readme Hc Hl Ho)
    as (_ & H1 & H2 & H3 & H4 & H5).
  split_and!; [exact Hc|exact Hl|exact Ho| |exact H1|exact H2|exact H3
               |exact H4|].
  - unfold listing1, readme. do 4 apply list_elem_of_further.
    apply list_elem_of_here.
  - exact (H5 inOrder heap1 syncedServer syncedHeap None _ (or_introl Hs)).
Defined.

Lemma removed_not_fetched_witness :
  let old := obj "old-1.0.0.tgz" 1 in
  Removed (GetObjectSliceDiff cache1 (filterObjects listing1)) = [old]
  ∧ removeIndexObject healthyServer index1 old []
    = (indexOf [chart "upd" "1.0.0"], None, [])
  ∧ fetched (removeIndexObject healthyServer index1 old []).2 = []
  ∧ regenerateRepositoryIndex inOrder healthyServer heap1 []
    = Some (syncedServer, syncedHeap, None, syncedTrace)
  ∧ ("old-1.0.0.tgz" ∉ fetched syncedTrace).
Proof.
  intros old.
  assert (Hrem : Removed (GetObjectSliceDiff cache1 (filterObjects listing1))
                 = [old]) by by_evaluation.
  assert (Hr : regenerateRepositoryIndex inOrder healthyServer heap1 []
               = Some (syncedServer, syncedHeap, None, syncedTrace))
    by by_evaluation.
  destruct (removed_objects_are_not_fetched healthyServer index1 old [])
    as (_ & _ & Hf & Hall).
  split_and!; [exact Hrem|by_evaluation|exact Hf|exact Hr|].
  intros Hp.
  assert (Hpath : "old-1.0.0.tgz"
                  ∈ paths (Removed (GetObjectSliceDiff
                                      (StorageCache healthyServer)
                                      (filterObjects listing1)))).
  { change (StorageCache healthyServer) with cache1. rewrite Hrem.
    apply list_elem_of_here. }
  pose proof (Hall inOrder heap1 syncedServer syncedHeap None _ listing1
                "old-1.0.0.tgz" Hr eq_refl Hpath Hp) as Hnil.
  by apply elem_of_nil in Hnil.
Defined.

Lemma empty_content_witness :
  let z := obj "z-1.0.0.tgz" 1 in
  let y := obj "y-1.0.0.tgz" 1 in
  GetObject (StorageBackend healthyServer) (Path z)
  = Ok {| Path := "z-1.0.0.tgz"; Content := []; Marker := 0 |}
  ∧ getObjectChartVersion healthyServer z true []
    = (Err ErrorInvalidChartPackage, [EvGetObject "z-1.0.0.tgz"])
  ∧ GetObject (StorageBackend failingServer) (Path y)
    = Err (ErrOther "timeout")
  ∧ updateIndexObject failingServer index1 y []
    = (index1, Some (ErrOther "timeout"), [EvGetObject "y-1.0.0.tgz"]).
Proof.
  intros z y.
  assert (Hz : GetObject (StorageBackend healthyServer) (Path z)
               = Ok {| Path := "z-1.0.0.tgz"; Content := []; Marker := 0 |})
    by by_evaluation.
  assert (Hy : GetObject (StorageBackend failingServer) (Path y)
               = Err (ErrOther "timeout")) by by_evaluation.
  destruct (empty_content_is_invalid_fetch_failure_is_fatal
              healthyServer index1 z []) as (Hempty & _).
  destruct (empty_content_is_invalid_fetch_failure_is_fatal
              failingServer index1 y []) as (_ & Hfail).
  split_and!; [exact Hz| |exact Hy|].
  - exact (proj1 (Hempty _ Hz eq_refl)).
  - assert (Hne : ErrOther "timeout" ≠ ErrorInvalidChartPackage) by done.
    exact (proj1 (proj2 (Hfail _ Hy) Hne)).
Defined.

Lemma successful_regeneration_witness :
  regenerateRepositoryIndex inOrder healthyServer heap1 []
  = Some (syncedServer, syncedHeap, None, syncedTrace)
  ∧ StorageCache syncedServer = filterObjects listing1
  ∧ paths (StorageCache syncedServer)
    = ["upd-1.0.0.tgz"; "x-1.0.0.tgz"; "y-1.0.0.tgz"; "z-1.0.0.tgz"].
Proof.
  assert (Hr : regenerateRepositoryIndex inOrder healthyServer heap1 []
               = Some (syncedServer, syncedHeap, None, syncedTrace))
    by by_evaluation.
  destruct (successful_regeneration_records_listing _ _ _ _ _ _ _ Hr)
    as (allObjects & Hall & Hcache & _).
  assert (allObjects = listing1) as -> by (simpl in Hall; congruence).
  split; [exact Hr|]. split; [exact Hcache|]. by_evaluation.
Defined.

(** While the first caller holds the lock inside its regeneration, the
    second caller's [syncRepositoryIndex] lists the store and diffs
    against the cache: it does not wait for the lock. *)
Lemma sync_lists_while_lock_is_held :
  pexec [PList 0; PLock 0] twoCallers = Some oneRegenerating
  ∧ callers oneRegenerating = [Regenerating; AtSync]
  ∧ StorageCacheLock (pserver oneRegenerating) = true
  ∧ (p' ← pstep (PList 1) oneRegenerating; Some (callers p', ptrace p'))
    = Some ([Regenerating; AtLock],
            EvListObjects :: ptrace oneRegenerating)
  ∧ ¬ syncWaitsForLock oneRegenerating.
Proof.
  split_and!; [by_evaluation|reflexivity|reflexivity|by_evaluation|].
  intros Hwait. specialize (Hwait 1 eq_refl eq_refl).
  assert (Hs : bool_decide (is_Some (pstep (PList 1) oneRegenerating)) = true)
    by by_evaluation.
  apply bool_decide_eq_true in Hs. rewrite Hwait in Hs. by destruct Hs.
Qed.

(** The second caller in the three situations: during the regeneration
    of the first it lists and then stands at [Lock()], which is not
    enabled; after that regeneration its listing shows no change and it
    returns nil; on a store that cannot be reached it returns the error
    of the listing. *)
Lemma regenerations_never_overlap_witness :
  StorageCacheLock (pserver twoCallers) = false
  ∧ regenerating twoCallers = 0
  ∧ pexec [PList 0; PLock 0] twoCallers = Some oneRegenerating
  ∧ regenerating oneRegenerating = 1
  ∧ pstep (PLock 1) oneRegenerating = None
  ∧ (∃ p', pstep (PList 1) oneRegenerating = Some p'
           ∧ pserver p' = pserver oneRegenerating
           ∧ callers p' !! 1 = Some AtLock)
  ∧ pexec [PList 0; PLock 0; PRegenerate 0 inOrder] twoCallers
    = Some oneFinished
  ∧ (∃ p', pstep (PList 1) oneFinished = Some p'
           ∧ callers p' !! 1 = Some (Finished None))
  ∧ (∃ p', pstep (PList 0) offlineCaller = Some p'
           ∧ callers p' !! 0
             = Some (Finished (Some (ErrOther "connection refused")))).
Proof.
  assert (Hx : pexec [PList 0; PLock 0] twoCallers = Some oneRegenerating)
    by by_evaluation.
  assert (Hy : pexec [PList 0; PLock 0; PRegenerate 0 inOrder] twoCallers
               = Some oneFinished) by by_evaluation.
  destruct (regenerations_never_overlap twoCallers [PList 0; PLock 0]
              oneRegenerating eq_refl eq_refl Hx)
    as (_ & Hiff & Hblock & _ & _ & _ & Hlist).
  destruct (Hlist 1 eq_refl) as (p1 & Hs1 & Hserver1 & _ & _ & _ & Hc1).
  destruct (regenerations_never_overlap twoCallers _ oneFinished
              eq_refl eq_refl Hy) as (_ & _ & _ & _ & _ & _ & Hlist2).
  destruct (Hlist2 1 eq_refl) as (p2 & Hs2 & _ & _ & _ & _ & Hc2).
  destruct (regenerations_never_overlap offlineCaller [] offlineCaller
              eq_refl eq_refl eq_refl) as (_ & _ & _ & _ & _ & _ & Hlist3).
  destruct (Hlist3 0 eq_refl) as (p3 & Hs3 & _ & _ & _ & _ & Hc3).
  split_and!; [reflexivity|reflexivity|exact Hx| | | |exact Hy| |].
  - exact (proj1 Hiff eq_refl).
  - exact (Hblock 1 eq_refl).
  - exists p1. split; [exact Hs1|]. split; [exact Hserver1|].
    rewrite Hc1. by_evaluation.
  - exists p2. split; [exact Hs2|]. rewrite Hc2. by_evaluation.
  - exists p3. split; [exact Hs3|]. exact Hc3.
Defined.

Lemma NewServer_witness :
  let logger := {| LogJSON := false; LogDebug := false |} in
  let built := buildServer (options failingStore) logger emptyHeap in
  let tr' := [EvGetObject "y-1.0.0.tgz"; EvGetObject "x-1.0.0.tgz";
              EvGetObject "upd-1.0.0.tgz"; EvListObjects] in
  @configBuild brokenZap false false = Some (ErrOther "zap: no encoder")
  ∧ @NewServer _ _ _ brokenZap inOrder (options failingStore) emptyHeap []
    = Some (ZeroServer, emptyHeap, None, [])
  ∧ NewServer (seqSchedule 4) (options failingStore) emptyHeap []
    = Some (ServerAt built, failedStartHeap, Some (ErrOther "timeout"), tr')
  ∧ regenerateRepositoryIndex (seqSchedule 4) built
                              (NewIndex "http://charts" emptyHeap).2 []
    = Some (built, failedStartHeap, Some (ErrOther "timeout"), tr').
Proof.
  intros logger built tr'.
  assert (Hb : @configBuild brokenZap (OptLogJSON (options failingStore))
                 (OptDebug (options failingStore))
               = Some (ErrOther "zap: no encoder")) by reflexivity.
  assert (Hn : NewServer (seqSchedule 4) (options failingStore) emptyHeap []
               = Some (ServerAt built, failedStartHeap,
                       Some (ErrOther "timeout"), tr'))
    by by_evaluation.
  destruct (@NewServer_error_is_regeneration_error _ repoPkg _ brokenZap
              inOrder (options failingStore) emptyHeap []) as (Hzero & _).
  destruct (NewServer_error_is_regeneration_error
              (seqSchedule 4) (options failingStore) emptyHeap [])
    as (_ & Herr).
  destruct (Herr _ _ _ _ Hn) as (_ & server' & Hsp & Hr).
  injection Hsp as <-.
  split_and!; [exact Hb|exact (proj2 (Hzero _ Hb))|exact Hn|exact Hr].
Defined.

(** *** The further properties on the concrete store *)

Lemma fetched_once_witness :
  addIndexObjectsAsync onlyFailure failingServer index1 added1 []
  = Some (index1, Some (ErrOther "timeout"), [EvGetObject "y-1.0.0.tgz"])
  ∧ ∃ resolved,
      resolved `sublist_of` added1
      ∧ fetched [EvGetObject "y-1.0.0.tgz"] ≡ₚ paths resolved ++ fetched []
      ∧ (Some (ErrOther "timeout") = None → resolved = added1).
Proof.
  assert (H : addIndexObjectsAsync onlyFailure failingServer index1 added1 []
              = Some (index1, Some (ErrOther "timeout"),
                      [EvGetObject "y-1.0.0.tgz"])) by by_evaluation.
  split; [exact H|].
  exact (added_objects_are_fetched_once _ _ _ _ _ _ _ _ H).
Defined.

Lemma entered_once_witness :
  addIndexObjectsAsync inOrder healthyServer index1 added1 []
  = Some (loadedIndex, None, loadedTrace)
  ∧ ∃ received,
      received ≡ₚ added1
      ∧ loadedIndex
        = foldl AddEntry index1
                (omap (fun o => cv (outcome healthyServer o)) received).
Proof.
  assert (H : addIndexObjectsAsync inOrder healthyServer index1 added1 []
              = Some (loadedIndex, None, loadedTrace)) by by_evaluation.
  split; [exact H|].
  exact (added_charts_are_entered_once _ _ _ _ _ _ _ H).
Defined.

Lemma load_fails_witness :
  addIndexObjectsAsync earlyFailure failingServer index1 added1 []
  = Some (index1, Some (ErrOther "timeout"),
          [EvGetObject "z-1.0.0.tgz"; EvGetObject "y-1.0.0.tgz";
           EvGetObject "x-1.0.0.tgz"])
  ∧ ∃ o, o ∈ added1
         ∧ err (outcome failingServer o) = Some (ErrOther "timeout").
Proof.
  assert (H : addIndexObjectsAsync earlyFailure failingServer index1 added1 []
              = Some (index1, Some (ErrOther "timeout"),
                      [EvGetObject "z-1.0.0.tgz"; EvGetObject "y-1.0.0.tgz";
                       EvGetObject "x-1.0.0.tgz"])) by by_evaluation.
  split; [exact H|].
  exact (proj2 (load_fails_iff_some_object_is_fatal _ _ _ _ _ _ _ _ H)
               _ eq_refl).
Defined.

Lemma cancelled_goroutine_witness :
  let x := obj "x-1.0.0.tgz" 1 in
  areachable failingServer index1 added1 [] afterCancel
  ∧ NoDup (paths added1)
  ∧ ctxDone afterCancel = true
  ∧ gos afterCancel !! 0 = Some GSpawned
  ∧ added1 !! 0 = Some x
  ∧ aexec failingServer added1 [LSelect 0; LSelect 2; LRecv 1] afterCancel
    = Some afterCancelDrained
  ∧ (gos afterCancelDrained !! 0 = Some GSpawned
     ∨ gos afterCancelDrained !! 0 = Some GCancelled)
  ∧ ∃ resolved,
      fetched (atrace afterCancelDrained) ≡ₚ paths resolved ++ fetched []
      ∧ resolved `sublist_of` added1
      ∧ Path x ∉ paths resolved.
Proof.
  intros x.
  assert (Hreach : areachable failingServer index1 added1 [] afterCancel).
  { exists [LSelect 1; LResolve 1]. by_evaluation. }
  assert (Hnd : NoDup (paths added1)).
  { apply (bool_decide_eq_true_1 _). by_evaluation. }
  assert (Hx : aexec failingServer added1 [LSelect 0; LSelect 2; LRecv 1]
                     afterCancel = Some afterCancelDrained) by by_evaluation.
  pose proof (cancelled_goroutine_never_fetches
                failingServer index1 added1 [] afterCancel 0 x _ _
                Hreach Hnd eq_refl eq_refl eq_refl Hx) as [Hg Hf].
  split_and!; [exact Hreach|exact Hnd|reflexivity|reflexivity|reflexivity
               |exact Hx|exact Hg|exact Hf].
Defined.

Lemma update_loop_witness :
  forEachObject (updateIndexObject failingServer) added1 index1 []
  = (updatedOnce, Some (ErrOther "timeout"),
     [EvGetObject "y-1.0.0.tgz"; EvGetObject "x-1.0.0.tgz"])
  ∧ ∃ k,
      k ≤ length added1
      ∧ ["y-1.0.0.tgz"; "x-1.0.0.tgz"]
        = reverse (paths (take k added1)) ++ []
      ∧ ∃ o, 0 < k ∧ added1 !! (pred k) = Some o
             ∧ (getObjectChartVersion failingServer o true []).1
               = Err (ErrOther "timeout").
Proof.
  assert (H : forEachObject (updateIndexObject failingServer) added1 index1 []
              = (updatedOnce, Some (ErrOther "timeout"),
                 [EvGetObject "y-1.0.0.tgz"; EvGetObject "x-1.0.0.tgz"]))
    by by_evaluation.
  split; [exact H|].
  destruct (update_loop_fetches_in_order_until_failure _ _ _ _ _ _ _ H)
    as (k & Hk & Hf & _ & He).
  destruct (He _ eq_refl) as (o & Hpos & Ho & Hget & _).
  exists k. split; [exact Hk|]. split; [exact Hf|].
  exists o. split_and!; [exact Hpos|exact Ho|exact Hget].
Defined.

Lemma fatal_update_witness :
  let upd := obj "upd-1.0.0.tgz" 2 in
  let diff := GetObjectSliceDiff (StorageCache staleServer)
                                 (filterObjects listing1) in
  Updated diff = [upd]
  ∧ GetObject (StorageBackend staleServer) (Path upd)
    = Err (ErrOther "timeout")
  ∧ ∃ e' heap' tr',
      regenerateRepositoryIndex inOrder staleServer heap1 []
      = Some (staleServer, heap', Some e', tr')
      ∧ ∀ p, p ∈ paths (Added diff) → p ∈ fetched tr' → p ∈ fetched [].
Proof.
  intros upd diff.
  assert (Hu : Updated diff = [upd]) by by_evaluation.
  assert (Hg : GetObject (StorageBackend staleServer) (Path upd)
               = Err (ErrOther "timeout")) by by_evaluation.
  assert (Hin : upd ∈ Updated diff)
    by (rewrite Hu; apply list_elem_of_here).
  assert (Hne : ErrOther "timeout" ≠ ErrorInvalidChartPackage) by done.
  split; [exact Hu|]. split; [exact Hg|].
  exact (fatal_update_fails_before_added_are_fetched
           inOrder staleServer heap1 [] listing1 upd _
           eq_refl eq_refl Hin Hg Hne).
Defined.

Lemma listing_failure_witness :
  let refused := ErrOther "connection refused" in
  let logger := {| LogJSON := false; LogDebug := false |} in
  ListObjects (StorageBackend offlineServer) = Err refused
  ∧ syncRepositoryIndex inOrder offlineServer heap1 []
    = Some (offlineServer, heap1, Some refused, [EvListObjects])
  ∧ regenerateRepositoryIndex inOrder offlineServer heap1 []
    = Some (offlineServer, heap1, Some refused, [EvListObjects])
  ∧ NewServer inOrder (options unreachableStore) emptyHeap []
    = Some (ServerAt (buildServer (options unreachableStore) logger emptyHeap),
            (NewIndex "http://charts" emptyHeap).2, Some refused, [EvListObjects]).
Proof.
  intros refused logger.
  destruct (listing_failure_is_returned_verbatim
              inOrder offlineServer heap1 (options unreachableStore) []
              refused) as [Hsync _].
  destruct (listing_failure_is_returned_verbatim
              inOrder offlineServer emptyHeap (options unreachableStore) []
              refused) as [_ Hnew].
  destruct (Hsync eq_refl) as [Hs Hr].
  split_and!; [reflexivity|exact Hs|exact (Hr eq_refl)
               |exact (Hnew eq_refl eq_refl)].
Defined.

Lemma callers_finish_witness :
  StorageCacheLock (pserver twoCallers) = false
  ∧ regenerating twoCallers = 0
  ∧ pexec [PList 0; PLock 0] twoCallers = Some oneRegenerating
  ∧ (∃ ls' p',
        pexec ls' oneRegenerating = Some p'
        ∧ (∀ t c, callers p' !! t = Some c → ∃ e, c = Finished e)
        ∧ StorageCacheLock (pserver p') = false)
  ∧ pmeasure oneRegenerating = 4.
Proof.
  assert (Hx : pexec [PList 0; PLock 0] twoCallers = Some oneRegenerating)
    by by_evaluation.
  destruct (callers_can_always_finish twoCallers [PList 0; PLock 0]
              oneRegenerating eq_refl eq_refl Hx) as (Hfin & _ & _).
  split_and!; [reflexivity|reflexivity|exact Hx|exact Hfin|reflexivity].
Defined.

Lemma regeneration_trace_witness :
  let warning := EvWarnInvalidPackage "added" "z-1.0.0.tgz" in
  regenerateRepositoryIndex inOrder healthyServer heap1 []
  = Some (syncedServer, syncedHeap, None, syncedTrace)
  ∧ warning ∈ syncedTrace
  ∧ (warning ∈ [] ∨ warning = EvListObjects
     ∨ ∃ allObjects o,
         ListObjects (StorageBackend healthyServer) = Ok allObjects
         ∧ let diff := GetObjectSliceDiff (StorageCache healthyServer)
                                          (filterObjects allObjects) in
           (o ∈ Removed diff
            ∧ objectEvent healthyServer "removed" false o warning)
           ∨ (o ∈ Updated diff
              ∧ objectEvent healthyServer "updated" true o warning)
           ∨ (o ∈ Added diff
              ∧ objectEvent healthyServer "added" true o warning)).
Proof.
  intros warning.
  assert (Hr : regenerateRepositoryIndex inOrder healthyServer heap1 []
               = Some (syncedServer, syncedHeap, None, syncedTrace))
    by by_evaluation.
  assert (Hin : warning ∈ syncedTrace) by apply list_elem_of_here.
  split; [exact Hr|]. split; [exact Hin|].
  exact (regeneration_trace_is_explained_by_the_diff
           _ _ _ _ _ _ _ _ _ Hr Hin).
Defined.

Lemma sync_listings_witness :
  syncRepositoryIndex inOrder healthyServer heap1 []
  = Some (syncedServer, syncedHeap, None, syncedTrace ++ [EvListObjects])
  ∧ listings (syncedTrace ++ [EvListObjects]) = 2
  ∧ syncRepositoryIndex inOrder syncedServer syncedHeap []
    = Some (syncedServer, syncedHeap, None, [EvListObjects])
  ∧ listings [EvListObjects] = 1.
Proof.
  assert (H1 : syncRepositoryIndex inOrder healthyServer heap1 []
               = Some (syncedServer, syncedHeap, None,
                       syncedTrace ++ [EvListObjects]))
    by by_evaluation.
  assert (H2 : syncRepositoryIndex inOrder syncedServer syncedHeap []
               = Some (syncedServer, syncedHeap, None, [EvListObjects]))
    by by_evaluation.
  split_and!; [exact H1| |exact H2|].
  - rewrite (sync_lists_once_or_twice _ _ _ _ _ _ _ _ H1). by_evaluation.
  - rewrite (sync_lists_once_or_twice _ _ _ _ _ _ _ _ H2). by_evaluation.
Defined.

Lemma sync_frame_witness :
  syncRepositoryIndex inOrder healthyServer heap1 []
  = Some (syncedServer, syncedHeap, None, syncedTrace ++ [EvListObjects])
  ∧ syncedServer
    = publish healthyServer (RepositoryIndex syncedServer)
              (StorageCache syncedServer).
Proof.
  assert (H : syncRepositoryIndex inOrder healthyServer heap1 []
              = Some (syncedServer, syncedHeap, None,
                      syncedTrace ++ [EvListObjects]))
    by by_evaluation.
  split; [exact H|].
  exact (sync_touches_only_index_and_cache _ _ _ _ _ _ _ _ (or_introl H)).
Defined.

Lemma regeneration_index_witness :
  regenerateRepositoryIndex inOrder healthyServer heap1 []
  = Some (syncedServer, syncedHeap, None, syncedTrace)
  ∧ ∃ received,
      let diff := GetObjectSliceDiff cache1 (filterObjects listing1) in
      received ≡ₚ Added diff
      ∧ (RepositoryIndex syncedServer, syncedHeap)
        = (Regenerate
             (foldl AddEntry
                (foldl UpdateEntry
                   (foldl RemoveEntry (RepositoryIndex healthyServer, heap1)
                      (omap (chartOf healthyServer false) (Removed diff)))
                   (omap (chartOf healthyServer true) (Updated diff)))
                (omap (chartOf healthyServer true) received))).1.
Proof.
  assert (Hr : regenerateRepositoryIndex inOrder healthyServer heap1 []
               = Some (syncedServer, syncedHeap, None, syncedTrace))
    by by_evaluation.
  split; [exact Hr|].
  destruct (regeneration_removes_updates_then_adds _ _ _ _ _ _ _ Hr)
    as (allObjects & received & Hall & Hrec & Hidx).
  assert (allObjects = listing1) as -> by (simpl in Hall; congruence).
  exists received. split; [exact Hrec|exact Hidx].
Defined.

(** [NewServer] with a nil error, once with the server it built and once
    with a logger that cannot be built. *)
Lemma startup_witness :
  NewServer (seqSchedule 4) (options healthyStore) emptyHeap []
  = Some (ServerAt startedServer, startedHeap, None, syncedTrace)
  ∧ StorageCache startedServer = filterObjects listing1
  ∧ fetched syncedTrace ≡ₚ paths (filterObjects listing1) ++ fetched []
  ∧ (∃ received,
        received ≡ₚ filterObjects listing1
        ∧ (RepositoryIndex startedServer, startedHeap)
          = (Regenerate
               (foldl AddEntry (NewIndex "http://charts" emptyHeap)
                      (omap (fun o => cv (outcome startedServer o))
                            received))).1)
  ∧ @NewServer _ _ _ brokenZap (seqSchedule 4) (options healthyStore) emptyHeap []
    = Some (ZeroServer, emptyHeap, None, []).
Proof.
  assert (Hn : NewServer (seqSchedule 4) (options healthyStore) emptyHeap []
               = Some (ServerAt startedServer, startedHeap, None, syncedTrace))
    by by_evaluation.
  assert (Hz : @NewServer _ _ _ brokenZap (seqSchedule 4)
                 (options healthyStore) emptyHeap []
               = Some (ZeroServer, emptyHeap, None, [])) by reflexivity.
  pose proof (startup_loads_every_package_once _ _ _ _ _ _ _ Hn) as Hstart.
  pose proof (@startup_loads_every_package_once _ repoPkg _ brokenZap
                _ _ _ _ _ _ _ Hz) as _.
  destruct Hstart
    as (server' & allObjects & received & Hsp & Hall & Hcache & Hf
        & Hrec & Hidx).
  injection Hsp as <-.
  assert (allObjects = listing1) as -> by (simpl in Hall; congruence).
  split; [exact Hn|]. split; [exact Hcache|]. split; [exact Hf|].
  split; [|exact Hz].
  exists received. split; [exact Hrec|exact Hidx].
Defined.
